(** * The Job lifecycle engine of the piston judge (api/src/executor/job.js)

    A shallow embedding of [Job] -- identity allocation, the constructor,
    [prime], [safe_call], [execute], [run_in_parallel], [run_in_band],
    [cleanup] and [evaluate] -- followed by the properties proved about it.

    Conventions of the embedding:
    - a JavaScript string is the list of its UTF-16 code units;
    - the module-level counters [uid] and [gid] are an explicit [Pool.t]
      threaded through the constructor;
    - a method takes [this] and returns the [this] it leaves behind;
    - the arrays [run], [this.stdin] and [this.expected_output] are lists
      read with [!!] and written with [<[i:=x]>]; the [run] array is
      mutated in place by [evaluate], so it is passed and returned;
    - a method that can throw (or whose promise can reject) returns a
      [completion];
    - child processes, their completion order and the file system are the
      environment: they are parameters of the methods that use them;
    - the logger and [console.log] calls are left out. *)

From Stdlib Require Import ZArith NArith String Ascii Lia.
From stdpp Require Import base list sorting.

Local Open Scope Z_scope.

(* ================================================================== *)
(** ** JavaScript values *)
(* ================================================================== *)

Module JS.

(** A string, as the sequence of its UTF-16 code units. *)
Definition jsstring : Type := list N.

(** The code units of an ASCII literal of the source. *)
Definition js (s : string) : jsstring :=
  map N_of_ascii (list_ascii_of_string s).

(** The values the verdict objects hold. *)
Inductive value : Type :=
| Null
| Undefined
| Str (s : jsstring).

(** An object literal: its keys in the order they are written. *)
Definition object : Type := list (string * value).

Definition keys (o : object) : list string := map fst o.

Fixpoint get (o : object) (k : string) : value :=
  match o with
  | [] => Undefined
  | (k', v) :: o' => if String.eqb k k' then v else get o' k
  end.

(** Truthiness of a string: every string but the empty one. *)
Definition truthy (s : jsstring) : bool :=
  match s with
  | [] => false
  | _ :: _ => true
  end.

(** [a || b] on strings. *)
Definition or_else (a b : jsstring) : jsstring :=
  if truthy a then a else b.

(** [a[i]] read from an array of strings: [undefined] out of range. *)
Definition index (a : list jsstring) (i : nat) : value :=
  match a !! i with
  | Some s => Str s
  | None => Undefined
  end.

(** What a [completion] carries when the code throws or a promise
    rejects. *)
Inductive exn : Type :=
| Error (message : jsstring)
| TypeError
| Rejected (error stdout stderr stdin : jsstring)
| FsError (code : jsstring).

Inductive completion (A : Type) : Type :=
| Return (a : A)
| Throw (e : exn).
Arguments Return {A} a.
Arguments Throw {A} e.

(** The regular-expression class [\s]: ECMAScript's WhiteSpace and
    LineTerminator code points. *)
Definition is_space (c : N) : bool :=
  ((9 <=? c) && (c <=? 13) || (c =? 32) || (c =? 160) || (c =? 5760)
   || (8192 <=? c) && (c <=? 8202) || (c =? 8232) || (c =? 8233)
   || (c =? 8239) || (c =? 8287) || (c =? 12288) || (c =? 65279))%N.

(** The alternative [^\s+], which can only match at position 0 and is
    greedy: the leading run of white space is removed. *)
Fixpoint skip_leading (s : jsstring) : jsstring :=
  match s with
  | [] => []
  | c :: r => if is_space c then skip_leading r else s
  end.

(** The alternative [\s+$], tried at each position from the left: it
    matches at the first position from which only white space, and at
    least one unit of it, remains. *)
Fixpoint strip_trailing (s : jsstring) : jsstring :=
  match s with
  | [] => []
  | c :: r => if forallb is_space s then [] else c :: strip_trailing r
  end.

(** [s.replace(/^\s+|\s+$/g, "")]. *)
Definition replace_edges (s : jsstring) : jsstring :=
  strip_trailing (skip_leading s).

(** [s.slice(0, -n)]: all but the last [n] units, empty when [s] has no
    more than [n]. *)
Definition slice_0_neg (n : nat) (s : jsstring) : jsstring :=
  take (length s - n)%nat s.

(** [a.includes(x)] on an array of strings. *)
Definition includes (a : list jsstring) (x : jsstring) : bool :=
  bool_decide (x ∈ a).

End JS.
Import JS.

(* ================================================================== *)
(** ** Configuration, runtimes and results *)
(* ================================================================== *)

(** The [config] module is outside this file; the fields [Job] reads. *)
Module Config.
Record t : Type := mk {
  data_directory : jsstring;
  runner_uid_min : Z;
  runner_uid_max : Z;
  runner_gid_min : Z;
  runner_gid_max : Z;
  max_process_count : Z;
  max_open_files : Z;
  output_max_size : Z;
  disable_networking : bool
}.
End Config.

Module Runtime.
Record t : Type := mk {
  language : jsstring;
  compiled : bool;
  pkgdir : list jsstring;
  env_vars : list (jsstring * jsstring)
}.
End Runtime.

Module FileSpec.
Record t : Type := mk {
  name : jsstring;
  content : jsstring
}.
End FileSpec.

Module Timeouts.
Record t : Type := mk {
  compile : Z;
  run : Z
}.
End Timeouts.

(** What [safe_call] resolves with: [{ stdout, stderr, code, signal, stdin }]. *)
Module RunResult.
Record t : Type := mk {
  stdout : jsstring;
  stderr : jsstring;
  code : option Z;
  signal : option jsstring;
  stdin : jsstring
}.

(** The assignment [r.stdout = s]. *)
Definition set_stdout (r : t) (s : jsstring) : t :=
  mk s (stderr r) (code r) (signal r) (stdin r).
End RunResult.

#[global] Instance RunResult_eq_dec : EqDecision RunResult.t.
Proof. solve_decision. Defined.

(** The status strings of the [Verdict] table. *)
Module Verdict.
Definition AC : jsstring := js "AC".
Definition WA : jsstring := js "WA".
Definition COMPILATION : jsstring := js "COMPILATION".
Definition RUNTIME : jsstring := js "RUNTIME".
Definition TLE : jsstring := js "TLE".
Definition MLE : jsstring := js "MLE".
Definition PENDING : jsstring := js "PENDING".
Definition ERROR : jsstring := js "ERROR".
End Verdict.

Definition SIGKILL : jsstring := js "SIGKILL".

(** [signal === "SIGKILL"]. *)
Definition is_SIGKILL (signal : option jsstring) : bool :=
  bool_decide (signal = Some SIGKILL).


(* ================================================================== *)
(** ** The identity pool and the Job object *)
(* ================================================================== *)

(** The module-level [let uid = 0; let gid = 0]. *)
Module Pool.
Record t : Type := mk {
  uid : Z;
  gid : Z
}.

Definition initial : t := mk 0 0.
End Pool.

(** The three symbols of [job_states]. *)
Inductive job_states : Type :=
| READY
| PRIMED
| EXECUTED.

#[global] Instance job_states_eq_dec : EqDecision job_states.
Proof. solve_decision. Defined.

(** [state.toString()] of a symbol: its description in [Symbol(...)]. *)
Definition state_toString (s : job_states) : jsstring :=
  match s with
  | READY => js "Symbol(Ready to be primed)"
  | PRIMED => js "Symbol(Primed and ready for execution)"
  | EXECUTED => js "Symbol(Executed and ready for cleanup)"
  end.

(** The argument of the constructor. *)
Module JobSpec.
Record t : Type := mk {
  runtime : Runtime.t;
  files : list FileSpec.t;
  args : list jsstring;
  stdin : list jsstring;
  expected_output : option (list jsstring);
  timeouts : Timeouts.t;
  main : jsstring;
  alias : jsstring
}.
End JobSpec.

(** The environment of [safe_call]: what is handed to [cp.spawn], and
    what the child then does. *)
Module Process.

(** The arguments of [cp.spawn]: the command
    [prlimit --nproc=.. --nofile=.. [nosocket] bash file args..] by its
    parts, the options, and the [stdin] written to the child. *)
Record request : Type := mk_request {
  nproc : Z;
  nofile : Z;
  nosocket : bool;
  file : list jsstring;
  args : list jsstring;
  env_vars : list (jsstring * jsstring);
  PISTON_ALIAS : jsstring;
  cwd : list jsstring;
  uid : Z;
  gid : Z;
  timeout : Z;
  input : jsstring
}.

(** The callbacks that fire before the child ends: a chunk on one of its
    pipes, or the [kill_timeout] timer. *)
Inductive event : Type :=
| StdoutData (data : jsstring)
| StderrData (data : jsstring)
| KillTimeout.

(** How the promise of the call is settled: by the [exit] event of the
    child with its code and signal, by its [error] event, or by an error
    thrown inside the promise executor itself ([cp.spawn] throws, or
    [proc.stdin] is missing or its [write] throws), before any handler is
    registered.  An [error] event on [proc.stdin], which has no listener,
    is an uncaught exception that ends the node process: such runs have no
    completion and are outside the embedding. *)
Inductive ending : Type :=
| Exit (code : option Z) (signal : option jsstring)
| SpawnError (err : jsstring)
| Thrown (e : exn).

(** A call: the callbacks in the order they fire, then how it ends. *)
Record behaviour : Type := mk_behaviour {
  events : list event;
  ends : ending
}.

(** The variables of the promise's closure: the two buffers, the number
    of [proc.kill("SIGKILL")] calls made so far, and whether
    [exit_cleanup] has killed the process group. *)
Record capture : Type := mk_capture {
  stdout : jsstring;
  stderr : jsstring;
  kills : nat;
  group_killed : bool
}.

(** What the scheduler of one [execute] has seen: the calls to [cp.spawn]
    (numbered in the order they are made) and the settlements awaited. *)
Inductive step : Type :=
| Spawned (n : nat) (req : request)
| Settled (n : nat).

Record world : Type := mk_world {
  trace : list step;
  spawned : nat
}.

End Process.

Module Job.

Record t : Type := mk {
  uuid : jsstring;
  runtime : Runtime.t;
  files : list FileSpec.t;
  args : list jsstring;
  stdin : list jsstring;
  expected_output : option (list jsstring);
  timeouts : Timeouts.t;
  main : jsstring;
  alias : jsstring;
  uid : Z;
  gid : Z;
  state : job_states;
  dir : list jsstring
}.

(** The assignment [this.state = s]. *)
Definition set_state (this : t) (s : job_states) : t :=
  mk (uuid this) (runtime this) (files this) (args this) (stdin this)
     (expected_output this) (timeouts this) (main this) (alias this)
     (uid this) (gid this) s (dir this).

(** The assignment [this.main = m]. *)
Definition set_main (this : t) (m : jsstring) : t :=
  mk (uuid this) (runtime this) (files this) (args this) (stdin this)
     (expected_output this) (timeouts this) m (alias this)
     (uid this) (gid this) (state this) (dir this).

(** [shuffle_ids]: the pair assigned to [this.uid] and [this.gid], and the
    counters afterwards.  [%] is the remainder of the truncated division;
    the range sizes are nonzero whenever [max >= min]. *)
Definition shuffle_ids (config : Config.t) (pool : Pool.t) : (Z * Z) * Pool.t :=
  let this_uid := Config.runner_uid_min config + Pool.uid pool in
  let this_gid := Config.runner_gid_min config + Pool.gid pool in
  let uid := Pool.uid pool + 1 in
  let gid := Pool.gid pool + 1 in
  let uid :=
    Z.rem uid (Config.runner_uid_max config - Config.runner_uid_min config + 1) in
  let gid :=
    Z.rem gid (Config.runner_gid_max config - Config.runner_gid_min config + 1) in
  ((this_uid, this_gid), Pool.mk uid gid).

(** The message of the error the constructor throws; 34 is the double
    quote. *)
Definition main_not_written (main : jsstring) : jsstring :=
  js "Main file " ++ [34%N] ++ main ++ [34%N] ++ js " will not be written to disk".

(** The constructor.  [uuid] is what [uuidv4()] returned and [jobs] is
    [globals.data_directories.jobs]; [path.join] is kept as the list of
    the segments it joins. *)
Definition constructor (config : Config.t) (jobs : jsstring) (uuid : jsstring)
    (spec : JobSpec.t) (pool : Pool.t) : completion t * Pool.t :=
  let file_list := map FileSpec.name (JobSpec.files spec) in
  if negb (includes file_list (JobSpec.main spec)) then
    (Throw (Error (main_not_written (JobSpec.main spec))), pool)
  else
    let '((this_uid, this_gid), pool') := shuffle_ids config pool in
    (Return
       (mk uuid (JobSpec.runtime spec) (JobSpec.files spec) (JobSpec.args spec)
           (JobSpec.stdin spec) (JobSpec.expected_output spec)
           (JobSpec.timeouts spec) (JobSpec.main spec) (JobSpec.alias spec)
           this_uid this_gid READY
           [Config.data_directory config; jobs; uuid]),
     pool').

(** *** [safe_call] *)

Section SafeCall.

Variable config : Config.t.

(** [proc.stderr.on("data", ...)]. *)
Definition on_stderr_data (c : Process.capture) (data : jsstring) : Process.capture :=
  if Z.of_nat (length (Process.stderr c)) >? Config.output_max_size config then
    Process.mk_capture (Process.stdout c) (Process.stderr c)
      (S (Process.kills c)) (Process.group_killed c)
  else
    Process.mk_capture (Process.stdout c) (Process.stderr c ++ data)
      (Process.kills c) (Process.group_killed c).

(** [proc.stdout.on("data", ...)]. *)
Definition on_stdout_data (c : Process.capture) (data : jsstring) : Process.capture :=
  if Z.of_nat (length (Process.stdout c)) >? Config.output_max_size config then
    Process.mk_capture (Process.stdout c) (Process.stderr c)
      (S (Process.kills c)) (Process.group_killed c)
  else
    Process.mk_capture (Process.stdout c ++ data) (Process.stderr c)
      (Process.kills c) (Process.group_killed c).

(** The timer set by [set_timeout((_) => proc.kill("SIGKILL"), timeout)]. *)
Definition on_kill_timeout (c : Process.capture) : Process.capture :=
  Process.mk_capture (Process.stdout c) (Process.stderr c)
    (S (Process.kills c)) (Process.group_killed c).

Definition on_event (c : Process.capture) (e : Process.event) : Process.capture :=
  match e with
  | Process.StdoutData data => on_stdout_data c data
  | Process.StderrData data => on_stderr_data c data
  | Process.KillTimeout => on_kill_timeout c
  end.

(** [exit_cleanup]: the timer is cleared, the pipes are destroyed and the
    process group is killed. *)
Definition exit_cleanup (c : Process.capture) : Process.capture :=
  Process.mk_capture (Process.stdout c) (Process.stderr c) (Process.kills c) true.

(** The buffers when the child ends; both start empty. *)
Definition drain (evs : list Process.event) : Process.capture :=
  fold_left on_event evs (Process.mk_capture [] [] 0 false).

(** What the promise of [safe_call] settles to, for a child that behaves
    as [b]: resolved by the [exit] handler, rejected by the [error]
    handler, or rejected with the error the executor threw. *)
Definition settle (b : Process.behaviour) (stdin : jsstring) : completion RunResult.t :=
  let c := exit_cleanup (drain (Process.events b)) in
  match Process.ends b with
  | Process.Exit code signal =>
      Return (RunResult.mk (Process.stdout c) (Process.stderr c) code signal stdin)
  | Process.SpawnError err =>
      Throw (Rejected err (Process.stdout c) (Process.stderr c) stdin)
  | Process.Thrown e => Throw e
  end.

(** The [n]-th child spawned behaves as [child n req]. *)
Variable child : nat -> Process.request -> Process.behaviour.

(** A pending promise of [safe_call]: the number of its child and what it
    will settle to. *)
Definition promise : Type := nat * completion RunResult.t.

(** What [safe_call] hands to [cp.spawn] and writes to the child. *)
Definition spawn_request (this : t) (file : list jsstring) (args : list jsstring)
    (timeout : Z) (stdin : jsstring) : Process.request :=
  Process.mk_request (Config.max_process_count config)
    (Config.max_open_files config) (Config.disable_networking config)
    file args (Runtime.env_vars (runtime this)) (alias this)
    (dir this) (uid this) (gid this) timeout stdin.

(** [this.safe_call(file, args, timeout, stdin)] up to the point where
    the promise is returned: the child is spawned and the handlers are
    registered. *)
Definition safe_call (this : t) (file : list jsstring) (args : list jsstring)
    (timeout : Z) (stdin : jsstring) (w : Process.world) : promise * Process.world :=
  let req := spawn_request this file args timeout stdin in
  let n := Process.spawned w in
  ((n, settle (child n req) stdin),
   Process.mk_world (Process.trace w ++ [Process.Spawned n req]) (S n)).

(** [await p] for one promise of [safe_call]. *)
Definition await (p : promise) (w : Process.world)
    : completion RunResult.t * Process.world :=
  (p.2, Process.mk_world (Process.trace w ++ [Process.Settled p.1]) (Process.spawned w)).

End SafeCall.

(** *** [evaluate] *)

(** The object [{ compile, run, verdict }] that [execute] and [evaluate]
    return. *)
Record result : Type := mk_result {
  compile : option RunResult.t;
  run : list RunResult.t;
  verdict : object
}.

(** The verdict literal of the four [return]s of [evaluate]. *)
Definition run_verdict (status : jsstring) (stdout stdin expected_output : value)
    : object :=
  [("status", Str status); ("stdout", stdout); ("stdin", stdin);
   ("expected_output", expected_output)]%string.

#[global] Instance value_eq_dec : EqDecision value.
Proof. solve_decision. Defined.

(** One turn of the [for] loop at index [i]: the [run] array as the turn
    leaves it, and [Some] completion when the turn leaves the function.
    Reading a property of [undefined] throws a [TypeError]. *)
Definition evaluate_body (this : t) (i : nat) (run : list RunResult.t)
    : list RunResult.t * option (completion object) :=
  match run !! i with
  | None => (run, Some (Throw TypeError))
  | Some r =>
      let expected_output :=
        match expected_output this with
        | Some eo => index eo i
        | None => Null
        end in
      if truthy (RunResult.stderr r) then
        (run, Some (Return (run_verdict Verdict.RUNTIME (Str (RunResult.stderr r))
                              (index (stdin this) i) expected_output)))
      else if is_SIGKILL (RunResult.signal r) then
        (run, Some (Return (run_verdict Verdict.TLE (Str (RunResult.stdout r))
                              (index (stdin this) i) expected_output)))
      else
        match Job.expected_output this with
        | None => (run, None)
        | Some eo =>
            (* run[i].stdout = run[i].stdout.replace(...) *)
            let r' := RunResult.set_stdout r (replace_edges (RunResult.stdout r)) in
            let run' := <[i := r']> run in
            (* expected_output = expected_output.replace(...) *)
            match expected_output with
            | Str e =>
                let expected_output := Str (replace_edges e) in
                (* run[i].stdout !== this.expected_output[i] *)
                if bool_decide (Str (RunResult.stdout r') ≠ index eo i) then
                  (run', Some (Return (run_verdict Verdict.WA (Str (RunResult.stdout r'))
                                         (index (stdin this) i) expected_output)))
                else (run', None)
            | _ => (run', Some (Throw TypeError))
            end
        end
  end.

(** The loop from index [i] with [n] turns left, then the final [return]. *)
Fixpoint evaluate_loop (this : t) (n i : nat) (run : list RunResult.t)
    : completion object * list RunResult.t :=
  match n with
  | O =>
      (Return (run_verdict Verdict.AC
                 (match run !! 0%nat with
                  | Some r => Str (RunResult.stdout r)
                  | None => Null
                  end)
                 (match stdin this !! 0%nat with
                  | Some s => Str s
                  | None => Null
                  end)
                 Null),
       run)
  | S n' =>
      match evaluate_body this i run with
      | (run', Some c) => (c, run')
      | (run', None) => evaluate_loop this n' (S i) run'
      end
  end.

(** [this.evaluate(run, compile)]: what it returns, [this] and the [run]
    array afterwards.  The returned object holds the [run] array itself. *)
Definition evaluate (this : t) (run : list RunResult.t) (compile : option RunResult.t)
    : completion result * t * list RunResult.t :=
  let '(c, run') := evaluate_loop this (length run) 0 run in
  (match c with
   | Return v => Return (mk_result compile run' v)
   | Throw e => Throw e
   end,
   this, run').

(** *** [run_in_band], [run_in_parallel] and [execute] *)

Section Execute.

Variable config : Config.t.
Variable child : nat -> Process.request -> Process.behaviour.

(** The children settle in the order of their finishing times. *)
Variable finish : nat -> nat.

Definition settles_before (p q : promise) : Prop := (finish p.1 <= finish q.1)%nat.

#[global] Instance settles_before_dec p q : Decision (settles_before p q).
Proof. unfold settles_before. apply _. Defined.

(** The call [this.safe_call(path.join(this.runtime.pkgdir, "run"),
    [this.main, ...this.args], this.timeouts.run, stdin)] of both loops. *)
Definition run_call (this : t) (stdin : jsstring) (w : Process.world)
    : promise * Process.world :=
  safe_call config child this (Runtime.pkgdir (runtime this) ++ [js "run"])
    (main this :: args this) (Timeouts.run (timeouts this)) stdin w.

(** The loop of [run_in_band] over the rest of [this.stdin]: each call is
    awaited before the next is made; [run[i] = ...] extends [run]. *)
Fixpoint run_in_band_loop (this : t) (stdin : list jsstring) (run : list RunResult.t)
    (w : Process.world) : completion (list RunResult.t) * Process.world :=
  match stdin with
  | [] => (Return run, w)
  | s :: stdin' =>
      let '(p, w1) := run_call this s w in
      let '(c, w2) := await p w1 in
      match c with
      | Return r => run_in_band_loop this stdin' (run ++ [r]) w2
      | Throw e => (Throw e, w2)
      end
  end.

Definition run_in_band (this : t) (w : Process.world)
    : completion (list RunResult.t) * Process.world :=
  run_in_band_loop this (stdin this) [] w.

(** The loop of [run_in_parallel]: every call is made, none is awaited. *)
Fixpoint run_in_parallel_loop (this : t) (stdin : list jsstring) (run : list promise)
    (w : Process.world) : list promise * Process.world :=
  match stdin with
  | [] => (run, w)
  | s :: stdin' =>
      let '(p, w1) := run_call this s w in
      run_in_parallel_loop this stdin' (run ++ [p]) w1
  end.

(** The settlements [Promise.all] sees, in the order they happen, up to
    the first rejection. *)
Fixpoint first_rejection (order : list promise) (w : Process.world)
    : option exn * Process.world :=
  match order with
  | [] => (None, w)
  | p :: order' =>
      let '(c, w1) := await p w in
      match c with
      | Return _ => first_rejection order' w1
      | Throw e => (Some e, w1)
      end
  end.

(** The values of the promises, in the order of the array. *)
Fixpoint values (run : list promise) : completion (list RunResult.t) :=
  match run with
  | [] => Return []
  | p :: run' =>
      match p.2 with
      | Return r =>
          match values run' with
          | Return rs => Return (r :: rs)
          | Throw e => Throw e
          end
      | Throw e => Throw e
      end
  end.

(** [await Promise.all(run)]: rejected with the first rejection to
    happen, else resolved with the values in the order of [run]. *)
Definition Promise_all (run : list promise) (w : Process.world)
    : completion (list RunResult.t) * Process.world :=
  match first_rejection (merge_sort settles_before run) w with
  | (Some e, w1) => (Throw e, w1)
  | (None, w1) => (values run, w1)
  end.

Definition run_in_parallel (this : t) (w : Process.world)
    : completion (list RunResult.t) * Process.world :=
  let '(run, w1) := run_in_parallel_loop this (stdin this) [] w in
  Promise_all run w1.

(** The message of the error [execute] throws outside the primed state. *)
Definition must_be_primed (s : job_states) : jsstring :=
  js "Job must be in primed state, current state: " ++ state_toString s.

(** The verdict literal of the compilation short-circuit. *)
Definition compilation_verdict (compile : RunResult.t) : object :=
  [("status", Str Verdict.COMPILATION);
   ("output", Str (or_else (RunResult.stderr compile)
                     (js "Something went wrong during compilation")));
   ("stdin", Null); ("expectedOutput", Null)]%string.

(** [this.execute()]: what it returns or throws, [this] afterwards, and
    the spawns and settlements it added to [w]. *)
Definition execute (this : t) (w : Process.world)
    : completion result * t * Process.world :=
  if bool_decide (state this ≠ PRIMED) then
    (Throw (Error (must_be_primed (state this))), this, w)
  else
    let '(compile, w1) :=
      if Runtime.compiled (runtime this) then
        let '(p, w0) :=
          safe_call config child this (Runtime.pkgdir (runtime this) ++ [js "compile"])
            (map FileSpec.name (files this)) (Timeouts.compile (timeouts this)) [] w in
        let '(c, w1) := await p w0 in
        (match c with
         | Return r => Return (Some r)
         | Throw e => Throw e
         end, w1)
      else (Return None, w) in
    match compile with
    | Throw e => (Throw e, this, w1)
    | Return compile =>
        let run_phase :=
          let '(run, this1, w2) :=
            if bool_decide (Runtime.language (runtime this) = js "java") then
              let this1 :=
                if Runtime.compiled (runtime this)
                then set_main this (slice_0_neg 5 (main this))
                else this in
              let '(run, w2) := run_in_band this1 w1 in
              (run, this1, w2)
            else
              let '(run, w2) := run_in_parallel this w1 in
              (run, this, w2) in
          match run with
          | Throw e => (Throw e, this1, w2)
          | Return run =>
              let this2 := set_state this1 EXECUTED in
              let '(r, this3, _) := evaluate this2 run compile in
              (r, this3, w2)
          end in
        match compile with
        | Some c =>
            if Runtime.compiled (runtime this)
               && (truthy (RunResult.stderr c) || is_SIGKILL (RunResult.signal c))
            then (Return (mk_result compile [] (compilation_verdict c)), this, w1)
            else run_phase
        | None => run_phase
        end
    end.

End Execute.

(** *** [prime] and [cleanup] *)

Section FileSystem.

(** The file system and the four operations of [fs/promises] the job
    uses; each leaves a file system and, when it rejects, an error code. *)
Variable FS : Type.
Variable mkdir : list jsstring -> Z -> FS -> FS * option jsstring.
Variable chown : list jsstring -> Z -> Z -> FS -> FS * option jsstring.
Variable write_file : list jsstring -> jsstring -> FS -> FS * option jsstring.
Variable rm : list jsstring -> FS -> FS * option jsstring.

(** The loop [for (const file of this.files)] of [prime]. *)
Fixpoint write_files (this : t) (files : list FileSpec.t) (fs : FS)
    : FS * option jsstring :=
  match files with
  | [] => (fs, None)
  | file :: files' =>
      let file_path := dir this ++ [FileSpec.name file] in
      match write_file file_path (FileSpec.content file) fs with
      | (fs1, Some e) => (fs1, Some e)
      | (fs1, None) =>
          match chown file_path (uid this) (gid this) fs1 with
          | (fs2, Some e) => (fs2, Some e)
          | (fs2, None) => write_files this files' fs2
          end
      end
  end.

(** [this.prime()]; 448 is [0o700]. *)
Definition prime (this : t) (fs : FS) : completion unit * t * FS :=
  match mkdir (dir this) 448 fs with
  | (fs1, Some e) => (Throw (FsError e), this, fs1)
  | (fs1, None) =>
      match chown (dir this) (uid this) (gid this) fs1 with
      | (fs2, Some e) => (Throw (FsError e), this, fs2)
      | (fs2, None) =>
          match write_files this (files this) fs2 with
          | (fs3, Some e) => (Throw (FsError e), this, fs3)
          | (fs3, None) => (Return tt, set_state this PRIMED, fs3)
          end
      end
  end.

(** [this.cleanup()]. *)
Definition cleanup (this : t) (fs : FS) : completion unit * t * FS :=
  match rm (dir this) fs with
  | (fs1, Some e) => (Throw (FsError e), this, fs1)
  | (fs1, None) => (Return tt, this, fs1)
  end.

End FileSystem.

End Job.

(* ================================================================== *)
(** ** Notions the properties are stated with *)
(* ================================================================== *)

(** A result whose [stdout] has been replaced by its trimmed value. *)
Definition trimmed (r : RunResult.t) : RunResult.t :=
  RunResult.set_stdout r (replace_edges (RunResult.stdout r)).

(** Test case [i] passes the three tests of [evaluate]: its [stderr] is
    empty, it was not killed, and, when expected output was given, the
    comparison [evaluate] makes finds the trimmed [stdout] equal to
    [expected_output[i]] as it was given.  This is the test of the code;
    the specification compares the two trimmed strings, see
    [accepting_as_specified]. *)
Definition accepting (this : Job.t) (i : nat) (r : RunResult.t) : Prop :=
  RunResult.stderr r = []
  ∧ RunResult.signal r ≠ Some SIGKILL
  ∧ ∀ eo, Job.expected_output this = Some eo →
          eo !! i = Some (replace_edges (RunResult.stdout r)).

(** Test case [i] is accepting as the specification has it: its [stderr]
    is empty, it was not killed, and, when expected output was given, the
    trimmed [stdout] equals the trimmed [expected_output[i]]. *)
Definition accepting_as_specified (this : Job.t) (i : nat) (r : RunResult.t) : Prop :=
  RunResult.stderr r = []
  ∧ RunResult.signal r ≠ Some SIGKILL
  ∧ ∀ eo e, Job.expected_output this = Some eo → eo !! i = Some e →
            replace_edges (RunResult.stdout r) = replace_edges e.

(** [evaluate] reaches the comparison of test case [i], where it writes
    the trimmed [stdout] back: expected output was given, every test case
    before [i] passed the three tests, and test case [i] has an empty
    [stderr] and was not killed. *)
Definition compared (this : Job.t) (run : list RunResult.t) (i : nat) : Prop :=
  is_Some (Job.expected_output this)
  ∧ (∀ j rj, (j < i)%nat → run !! j = Some rj →
       RunResult.stderr rj = []
       ∧ RunResult.signal rj ≠ Some SIGKILL
       ∧ ∀ eo, Job.expected_output this = Some eo →
               eo !! j = Some (replace_edges (RunResult.stdout rj)))
  ∧ ∃ r, run !! i = Some r
         ∧ RunResult.stderr r = []
         ∧ RunResult.signal r ≠ Some SIGKILL.

(** [expected_output[i]] if expected output was given, else [null]. *)
Definition expected_at (this : Job.t) (i : nat) : value :=
  match Job.expected_output this with
  | Some eo => index eo i
  | None => Null
  end.

(** [v] is the verdict object [evaluate] returns for the failure of test
    case [i], by the priority RUNTIME, then TLE, then WA.  The WA test is
    the one the code makes, the trimmed [stdout] against
    [expected_output[i]] as it was given. *)
Definition failure_at (this : Job.t) (i : nat) (r : RunResult.t) (v : object) : Prop :=
  (RunResult.stderr r ≠ []
   ∧ v = [("status", Str Verdict.RUNTIME);
          ("stdout", Str (RunResult.stderr r));
          ("stdin", index (Job.stdin this) i);
          ("expected_output", expected_at this i)]%string)
  ∨ (RunResult.stderr r = [] ∧ RunResult.signal r = Some SIGKILL
     ∧ v = [("status", Str Verdict.TLE);
            ("stdout", Str (RunResult.stdout r));
            ("stdin", index (Job.stdin this) i);
            ("expected_output", expected_at this i)]%string)
  ∨ (RunResult.stderr r = [] ∧ RunResult.signal r ≠ Some SIGKILL
     ∧ ∃ eo e, Job.expected_output this = Some eo ∧ eo !! i = Some e
               ∧ replace_edges (RunResult.stdout r) ≠ e
               ∧ v = [("status", Str Verdict.WA);
                      ("stdout", Str (replace_edges (RunResult.stdout r)));
                      ("stdin", index (Job.stdin this) i);
                      ("expected_output", Str (replace_edges e))]%string).

(** The counters after [n] successive allocations. *)
Definition allocate (config : Config.t) (n : nat) (pool : Pool.t) : Pool.t :=
  Nat.iter n (λ p, (Job.shuffle_ids config p).2) pool.

(** The sizes of the two ranges. *)
Definition uid_range (config : Config.t) : Z :=
  Config.runner_uid_max config - Config.runner_uid_min config + 1.

Definition gid_range (config : Config.t) : Z :=
  Config.runner_gid_max config - Config.runner_gid_min config + 1.

(** The two phases of [execute], for stating what each does. *)
Section Phases.

Variable config : Config.t.
Variable child : nat -> Process.request -> Process.behaviour.
Variable finish : nat -> nat.

(** The request of the compile call. *)
Definition compile_request (this : Job.t) : Process.request :=
  Job.spawn_request config this (Runtime.pkgdir (Job.runtime this) ++ [js "compile"])
    (map FileSpec.name (Job.files this)) (Timeouts.compile (Job.timeouts this)) [].

(** The request of the run call on [stdin]. *)
Definition run_request (this : Job.t) (stdin : jsstring) : Process.request :=
  Job.spawn_request config this (Runtime.pkgdir (Job.runtime this) ++ [js "run"])
    (Job.main this :: Job.args this) (Timeouts.run (Job.timeouts this)) stdin.

(** What the compile call settles to when it is the next child spawned
    in [w]. *)
Definition compile_outcome (this : Job.t) (w : Process.world) : completion RunResult.t :=
  Job.settle config (child (Process.spawned w) (compile_request this)) [].

(** The world once the compile call has been made and awaited. *)
Definition compiled_world (this : Job.t) (w : Process.world) : Process.world :=
  Process.mk_world
    (Process.trace w
     ++ [Process.Spawned (Process.spawned w) (compile_request this);
         Process.Settled (Process.spawned w)])
    (S (Process.spawned w)).

(** What the run calls on the entries of [stdin] settle to, when they are
    the children spawned from number [n] on. *)
Fixpoint run_outcomes (this : Job.t) (n : nat) (stdin : list jsstring)
    : list (completion RunResult.t) :=
  match stdin with
  | [] => []
  | s :: stdin' =>
      Job.settle config (child n (run_request this s)) s
      :: run_outcomes this (S n) stdin'
  end.

(** [this] as the run phase of [execute] sees it. *)
Definition run_phase_this (this : Job.t) : Job.t :=
  if bool_decide (Runtime.language (Job.runtime this) = js "java")
     && Runtime.compiled (Job.runtime this)
  then Job.set_main this (slice_0_neg 5 (Job.main this))
  else this.

(** The dispatch of the run phase from the world [w]. *)
Definition dispatch (this : Job.t) (w : Process.world)
    : completion (list RunResult.t) * Process.world :=
  if bool_decide (Runtime.language (Job.runtime this) = js "java")
  then Job.run_in_band config child (run_phase_this this) w
  else Job.run_in_parallel config child finish (run_phase_this this) w.

End Phases.

(** A trace in which every child is awaited before the next is spawned. *)
Fixpoint serial (t : list Process.step) : bool :=
  match t with
  | [] => true
  | Process.Spawned n _ :: Process.Settled m :: t' => (n =? m)%nat && serial t'
  | _ => false
  end.

Definition is_spawn (s : Process.step) : bool :=
  match s with
  | Process.Spawned _ _ => true
  | Process.Settled _ => false
  end.

(** A trace whose first [n] steps spawn [n] children, none of them
    awaited before all are spawned, and which spawns nothing more. *)
Definition parallel (n : nat) (t : list Process.step) : bool :=
  (n <=? length t)%nat
  && forallb is_spawn (take n t)
  && forallb (λ s, negb (is_spawn s)) (drop n t).

(** The requests of the spawns of a trace, in order. *)
Fixpoint requests (t : list Process.step) : list Process.request :=
  match t with
  | [] => []
  | Process.Spawned _ req :: t' => req :: requests t'
  | Process.Settled _ :: t' => requests t'
  end.

(** The first rejection of a list of settlements in index order, else
    their values. *)
Fixpoint sequence (cs : list (completion RunResult.t)) : completion (list RunResult.t) :=
  match cs with
  | [] => Return []
  | Return r :: cs' =>
      match sequence cs' with
      | Return rs => Return (r :: rs)
      | Throw e => Throw e
      end
  | Throw e :: _ => Throw e
  end.

(** The compile phase of [execute] lets the run phase start from the
    world [w1] with the compile result [compile]: the runtime is not
    compiled, or the compile call resolved with an empty [stderr] and was
    not killed. *)
Definition compile_passes (config : Config.t)
    (child : nat -> Process.request -> Process.behaviour) (this : Job.t)
    (w : Process.world) (compile : option RunResult.t) (w1 : Process.world) : Prop :=
  (Runtime.compiled (Job.runtime this) = false ∧ compile = None ∧ w1 = w)
  ∨ (Runtime.compiled (Job.runtime this) = true
     ∧ ∃ c, compile_outcome config child this w = Return c
            ∧ RunResult.stderr c = []
            ∧ RunResult.signal c ≠ Some SIGKILL
            ∧ compile = Some c
            ∧ w1 = compiled_world config this w).

(* ================================================================== *)
(** ** Sample objects, for the concrete instances below *)
(* ================================================================== *)

Definition sample_config : Config.t :=
  Config.mk (js "/piston") 1001 1003 2001 2002 64 2048 4 true.

Definition python : Runtime.t :=
  Runtime.mk (js "python") false [js "/piston"; js "packages"; js "python"] [].

Definition java : Runtime.t :=
  Runtime.mk (js "java") true [js "/piston"; js "packages"; js "java"] [].

(** A job on [runtime] with the given [stdin] and [expected_output], in
    the given state. *)
Definition sample_job (runtime : Runtime.t) (main : jsstring)
    (stdin : list jsstring) (expected_output : option (list jsstring))
    (state : job_states) : Job.t :=
  Job.mk (js "uuid-1") runtime [FileSpec.mk main (js "source")] []
    stdin expected_output (Timeouts.mk 10000 3000) main (js "alias")
    1001 2001 state [js "/piston"; js "jobs"; js "uuid-1"].

(** A result that exited with code 0. *)
Definition exited (stdout stderr stdin : jsstring) : RunResult.t :=
  RunResult.mk stdout stderr (Some 0) None stdin.

(** The line feed. *)
Definition LF : jsstring := [10%N].

(** Sample children: the compile script writes "syntax error" to its
    stderr and exits with code 1; a run script echoes its input and exits
    with code 0. *)
Definition sample_child (n : nat) (req : Process.request) : Process.behaviour :=
  if bool_decide (last (Process.file req) = Some (js "compile")) then
    Process.mk_behaviour [Process.StderrData (js "syntax error")]
      (Process.Exit (Some 1) None)
  else
    Process.mk_behaviour [Process.StdoutData (Process.input req)]
      (Process.Exit (Some 0) None).

(** Children whose compile script succeeds silently. *)
Definition quiet_child (n : nat) (req : Process.request) : Process.behaviour :=
  if bool_decide (last (Process.file req) = Some (js "compile")) then
    Process.mk_behaviour [] (Process.Exit (Some 0) None)
  else
    Process.mk_behaviour [Process.StdoutData (Process.input req)]
      (Process.Exit (Some 0) None).

(** The later a child is spawned, the sooner it finishes. *)
Definition sample_finish (n : nat) : nat := (10 - n)%nat.

Definition empty_world : Process.world := Process.mk_world [] 0.

(** A file system in memory: the paths that exist.  [mkdir] rejects an
    existing path, [chown] a missing one, [rm] removes a path and what is
    below it. *)
Module MemFs.
Definition t : Type := list (list jsstring).

Definition mkdir (path : list jsstring) (mode : Z) (fs : t) : t * option jsstring :=
  if bool_decide (path ∈ fs) then (fs, Some (js "EEXIST")) else (path :: fs, None).

Definition chown (path : list jsstring) (uid gid : Z) (fs : t) : t * option jsstring :=
  if bool_decide (path ∈ fs) then (fs, None) else (fs, Some (js "ENOENT")).

Definition write_file (path : list jsstring) (content : jsstring) (fs : t)
    : t * option jsstring :=
  (if bool_decide (path ∈ fs) then fs else path :: fs, None).

Definition rm (path : list jsstring) (fs : t) : t * option jsstring :=
  (filter (λ p, ¬ path `prefix_of` p) fs, None).
End MemFs.

(* ================================================================== *)
(** ** Notions for the further properties *)
(* ================================================================== *)

(** The chunks a child delivers on its stdout, in order. *)
Fixpoint stdout_chunks (evs : list Process.event) : list jsstring :=
  match evs with
  | [] => []
  | Process.StdoutData data :: evs' => data :: stdout_chunks evs'
  | _ :: evs' => stdout_chunks evs'
  end.

(** The chunks a child delivers on its stderr, in order. *)
Fixpoint stderr_chunks (evs : list Process.event) : list jsstring :=
  match evs with
  | [] => []
  | Process.StderrData data :: evs' => data :: stderr_chunks evs'
  | _ :: evs' => stderr_chunks evs'
  end.

(** How many times the kill timer fires. *)
Fixpoint timeouts_fired (evs : list Process.event) : nat :=
  match evs with
  | [] => 0
  | Process.KillTimeout :: evs' => S (timeouts_fired evs')
  | _ :: evs' => timeouts_fired evs'
  end.

(** What every child of a job is spawned with: the limits of the
    configuration, the environment and alias of the job, its directory as
    working directory and its identity. *)
Definition sandboxed (config : Config.t) (this : Job.t) (req : Process.request) : Prop :=
  Process.nproc req = Config.max_process_count config
  ∧ Process.nofile req = Config.max_open_files config
  ∧ Process.nosocket req = Config.disable_networking config
  ∧ Process.env_vars req = Runtime.env_vars (Job.runtime this)
  ∧ Process.PISTON_ALIAS req = Job.alias this
  ∧ Process.cwd req = Job.dir this
  ∧ Process.uid req = Job.uid this
  ∧ Process.gid req = Job.gid this.

(** A file system that records the owner of each path: [mkdir] and
    [write_file] create a path owned by root, [chown] changes the owner of
    an existing path. *)
Module OwnedFs.
Definition t : Type := list jsstring → option (Z * Z).

Definition empty : t := λ _, None.

Definition set (path : list jsstring) (owner : Z * Z) (fs : t) : t :=
  λ q, if decide (q = path) then Some owner else fs q.

Definition mkdir (path : list jsstring) (mode : Z) (fs : t) : t * option jsstring :=
  match fs path with
  | Some _ => (fs, Some (js "EEXIST"))
  | None => (set path (0, 0) fs, None)
  end.

Definition chown (path : list jsstring) (uid gid : Z) (fs : t) : t * option jsstring :=
  match fs path with
  | Some _ => (set path (uid, gid) fs, None)
  | None => (fs, Some (js "ENOENT"))
  end.

Definition write_file (path : list jsstring) (content : jsstring) (fs : t)
    : t * option jsstring :=
  match fs path with
  | Some _ => (fs, None)
  | None => (set path (0, 0) fs, None)
  end.

Definition owner (fs : t) (path : list jsstring) : option (Z * Z) := fs path.
End OwnedFs.

(** Children whose compile script succeeds silently and whose run script
    cannot be spawned. *)
Definition unspawnable_child (n : nat) (req : Process.request) : Process.behaviour :=
  if bool_decide (last (Process.file req) = Some (js "compile")) then
    Process.mk_behaviour [] (Process.Exit (Some 0) None)
  else
    Process.mk_behaviour [] (Process.SpawnError (js "ENOENT")).

(* ================================================================== *)
(** ** Lemmas on the JavaScript primitives *)
(* ================================================================== *)

Lemma skip_leading_head (s : jsstring) :
  match skip_leading s with
  | [] => True
  | c :: _ => is_space c = false
  end.
Proof.
  induction s as [|c s IH]; simpl; [done|].
  destruct (is_space c) eqn:Hc; [exact IH|]. exact Hc.
Qed.

Lemma skip_leading_fixed (s : jsstring) :
  match s with [] => True | c :: _ => is_space c = false end →
  skip_leading s = s.
Proof. destruct s as [|c s]; simpl; [done|]. by intros ->. Qed.

Lemma strip_trailing_all_space (s : jsstring) :
  forallb is_space (strip_trailing s) = forallb is_space s.
Proof.
  induction s as [|c s IH]; [done|].
  cbn [strip_trailing].
  destruct (forallb is_space (c :: s)) eqn:Hall; [done|].
  cbn [forallb] in *. by rewrite IH.
Qed.

Lemma strip_trailing_idemp (s : jsstring) :
  strip_trailing (strip_trailing s) = strip_trailing s.
Proof.
  induction s as [|c s IH]; [done|].
  cbn [strip_trailing].
  destruct (forallb is_space (c :: s)) eqn:Hall; [done|].
  cbn [strip_trailing].
  assert (forallb is_space (c :: strip_trailing s) = false) as ->.
  { cbn [forallb] in *. by rewrite strip_trailing_all_space. }
  by rewrite IH.
Qed.

Lemma strip_trailing_head (s : jsstring) :
  match s with [] => True | c :: _ => is_space c = false end →
  match strip_trailing s with [] => True | c :: _ => is_space c = false end.
Proof.
  destruct s as [|c s]; [done|]. intros Hc.
  cbn [strip_trailing forallb]. rewrite Hc. simpl. exact Hc.
Qed.

Lemma replace_edges_idemp (s : jsstring) :
  replace_edges (replace_edges s) = replace_edges s.
Proof.
  unfold replace_edges.
  rewrite (skip_leading_fixed (strip_trailing (skip_leading s))).
  - apply strip_trailing_idemp.
  - apply strip_trailing_head, skip_leading_head.
Qed.
Lemma trimmed_idemp r : trimmed (trimmed r) = trimmed r.
Proof.
  destruct r; unfold trimmed, RunResult.set_stdout; simpl.
  by rewrite replace_edges_idemp.
Qed.

Lemma truthy_false (s : jsstring) : truthy s = false ↔ s = [].
Proof. destruct s; simpl; split; congruence. Qed.

Lemma truthy_true (s : jsstring) : truthy s = true ↔ s ≠ [].
Proof. destruct s; simpl; split; congruence. Qed.

Lemma is_SIGKILL_true s : is_SIGKILL s = true ↔ s = Some SIGKILL.
Proof. unfold is_SIGKILL. by rewrite bool_decide_eq_true. Qed.

Lemma is_SIGKILL_false s : is_SIGKILL s = false ↔ s ≠ Some SIGKILL.
Proof. unfold is_SIGKILL. by rewrite bool_decide_eq_false. Qed.

(* ================================================================== *)
(** ** The adjudicator *)
(* ================================================================== *)

(** The loop from index [i]: it returns, and what it returns is the
    failure of the first test case from [i] on that is not accepting, or
    AC when there is none; the entries below [i] are left alone. *)
Lemma evaluate_loop_spec this n : ∀ i (run : list RunResult.t),
  (i + n = length run)%nat →
  (∀ eo, Job.expected_output this = Some eo → length eo = length run) →
  ∃ v run', Job.evaluate_loop this n i run = (Return v, run')
    ∧ length run' = length run
    ∧ (∀ j, (j < i)%nat → run' !! j = run !! j)
    ∧ ((∃ k r, (i ≤ k)%nat ∧ run !! k = Some r
          ∧ (∀ j rj, (i ≤ j)%nat → (j < k)%nat → run !! j = Some rj → accepting this j rj)
          ∧ failure_at this k r v)
       ∨ ((∀ j rj, (i ≤ j)%nat → run !! j = Some rj → accepting this j rj)
          ∧ (∀ j rj, (i ≤ j)%nat → run !! j = Some rj →
               run' !! j = Some (if Job.expected_output this is Some _ then trimmed rj else rj))
          ∧ v = Job.run_verdict Verdict.AC
                  (match run' !! 0%nat with
                   | Some r => Str (RunResult.stdout r)
                   | None => Null
                   end)
                  (match Job.stdin this !! 0%nat with
                   | Some s => Str s
                   | None => Null
                   end) Null)).
Proof.
  induction n as [|n IH]; intros i run Hlen Heo.
  - eexists _, run. split; [reflexivity|]. split; [done|]. split; [done|].
    right. split; [|split; [|done]].
    + intros j rj Hij Hj. apply lookup_lt_Some in Hj. lia.
    + intros j rj Hij Hj. apply lookup_lt_Some in Hj. lia.
  - destruct (lookup_lt_is_Some_2 run i) as [r Hr]; [lia|].
    cbn [Job.evaluate_loop]. unfold Job.evaluate_body. rewrite Hr.
    destruct (truthy (RunResult.stderr r)) eqn:Herr.
    { eexists _, run. split; [reflexivity|]. split; [done|]. split; [done|].
      left. exists i, r. split; [done|]. split; [done|]. split; [intros; lia|].
      left. split; [by apply truthy_true|]. done. }
    destruct (is_SIGKILL (RunResult.signal r)) eqn:Hsig.
    { eexists _, run. split; [reflexivity|]. split; [done|]. split; [done|].
      left. exists i, r. split; [done|]. split; [done|]. split; [intros; lia|].
      right; left. split; [by apply truthy_false|].
      split; [by apply is_SIGKILL_true|]. done. }
    apply truthy_false in Herr. apply is_SIGKILL_false in Hsig.
    destruct (Job.expected_output this) as [eo|] eqn:Hexp.
    + specialize (Heo eo eq_refl).
      destruct (lookup_lt_is_Some_2 eo i) as [e He]; [lia|].
      assert (Hidx : index eo i = Str e) by (unfold index; by rewrite He).
      rewrite !Hidx.
      case_bool_decide as Hne.
      * eexists _, _. split; [reflexivity|].
        split; [by rewrite length_insert|].
        split; [intros j Hj; apply list_lookup_insert_ne; lia|].
        left. exists i, r. split; [done|]. split; [done|]. split; [intros; lia|].
        right; right. split; [done|]. split; [done|].
        exists eo, e. split; [done|]. split; [done|].
        split; [simpl in Hne; congruence|]. done.
      * assert (e = replace_edges (RunResult.stdout r)) as He'.
        { simpl in Hne. by injection Hne. }
        clear Hne.
        destruct (IH (S i) (<[i:=RunResult.set_stdout r (replace_edges (RunResult.stdout r))]> run))
          as (v & run' & Hloop & Hlen' & Hlow & Hcase).
        { rewrite length_insert. lia. }
        { intros eo' Heo'. rewrite length_insert. congruence. }
        exists v, run'. split; [exact Hloop|].
        split; [by rewrite Hlen', length_insert|].
        split.
        { intros j Hj. rewrite Hlow by lia. apply list_lookup_insert_ne. lia. }
        assert (Hacc : accepting this i r).
        { split; [done|]. split; [done|]. intros eo' Heo'.
          rewrite Hexp in Heo'. injection Heo' as <-. by rewrite He, He'. }
        destruct Hcase as [(k & rk & Hk & Hrk & Hbefore & Hfail)|(Hall & Hfin & Hv)].
        -- left. exists k, rk. split; [lia|].
           rewrite list_lookup_insert_ne in Hrk by lia. split; [done|].
           split; [|done].
           intros j rj Hij Hjk Hj.
           destruct (decide (j = i)) as [->|Hne]; [by simplify_eq|].
           apply Hbefore; [lia|lia|]. by rewrite list_lookup_insert_ne by lia.
        -- right. split; [|split; [|done]].
           ++ intros j rj Hij Hj.
              destruct (decide (j = i)) as [->|Hne]; [by simplify_eq|].
              apply Hall; [lia|]. by rewrite list_lookup_insert_ne by lia.
           ++ intros j rj Hij Hj.
              destruct (decide (j = i)) as [->|Hne].
              ** simplify_eq. rewrite Hlow by lia.
                 rewrite list_lookup_insert_eq; [done|]. by eapply lookup_lt_Some.
              ** apply Hfin; [lia|]. by rewrite list_lookup_insert_ne by lia.
    + destruct (IH (S i) run) as (v & run' & Hloop & Hlen' & Hlow & Hcase);
        [lia|done|].
      exists v, run'. split; [exact Hloop|]. split; [done|].
      split; [intros j Hj; apply Hlow; lia|].
      assert (Hacc : accepting this i r).
      { split; [done|]. split; [done|]. intros eo' Heo'. congruence. }
      destruct Hcase as [(k & rk & Hk & Hrk & Hbefore & Hfail)|(Hall & Hfin & Hv)].
      * left. exists k, rk. split; [lia|]. split; [done|]. split; [|done].
        intros j rj Hij Hjk Hj.
        destruct (decide (j = i)) as [->|Hne]; [by simplify_eq|].
        apply Hbefore; [lia|lia|done].
      * right. split; [|split; [|done]].
        -- intros j rj Hij Hj.
           destruct (decide (j = i)) as [->|Hne]; [by simplify_eq|].
           apply Hall; [lia|done].
        -- intros j rj Hij Hj.
           destruct (decide (j = i)) as [->|Hne].
           ++ simplify_eq. by rewrite Hlow by lia.
           ++ apply Hfin; [lia|done].
Qed.

(** [evaluate] does not assign to [this]. *)
Lemma evaluate_this this run compile : (Job.evaluate this run compile).1.2 = this.
Proof. unfold Job.evaluate. by destruct (Job.evaluate_loop _ _ _ _). Qed.

Lemma failure_not_accepting this i r v :
  failure_at this i r v → ¬ accepting this i r.
Proof.
  intros [[Herr _]|[(_ & Hsig & _)|(_ & _ & eo & e & Heo & He & Hne & _)]]
    (Hacc1 & Hacc2 & Hacc3); [done|done|].
  specialize (Hacc3 eo Heo). congruence.
Qed.

Lemma failure_status this i r v :
  failure_at this i r v → get v "status" ≠ Str Verdict.AC.
Proof.
  intros [[_ ->]|[(_ & _ & ->)|(_ & _ & eo & e & _ & _ & _ & ->)]];
    by vm_compute.
Qed.

(** C1.  [evaluate] does not return the first non-accepting verdict.
    With the expected output "hi" followed by a line feed, a test case
    that prints "hi" is accepting: its [stderr] is empty, it was not
    killed, and the two trimmed strings are equal.  Yet on that test case
    alone [evaluate] returns WA, not AC; and on that test case followed
    by one that was killed, whose verdict TLE is the first non-accepting
    one, it returns WA for the first test case. *)
Example evaluate_rejects_accepting_case :
  accepting_as_specified
    (sample_job python (js "a.py") [js "a"] (Some [js "hi" ++ LF]) EXECUTED)
    0 (exited (js "hi") [] (js "a"))
  ∧ (Job.evaluate
       (sample_job python (js "a.py") [js "a"] (Some [js "hi" ++ LF]) EXECUTED)
       [exited (js "hi") [] (js "a")] None).1.1
    = Return (Job.mk_result None [exited (js "hi") [] (js "a")]
                [("status", Str Verdict.WA); ("stdout", Str (js "hi"));
                 ("stdin", Str (js "a")); ("expected_output", Str (js "hi"))]%string)
  ∧ accepting_as_specified
      (sample_job python (js "a.py") [js "a"; js "b"] (Some [js "hi" ++ LF; js "x"]) EXECUTED)
      0 (exited (js "hi") [] (js "a"))
  ∧ ¬ accepting_as_specified
        (sample_job python (js "a.py") [js "a"; js "b"] (Some [js "hi" ++ LF; js "x"]) EXECUTED)
        1 (RunResult.mk [] [] None (Some SIGKILL) (js "b"))
  ∧ (Job.evaluate
       (sample_job python (js "a.py") [js "a"; js "b"] (Some [js "hi" ++ LF; js "x"]) EXECUTED)
       [exited (js "hi") [] (js "a"); RunResult.mk [] [] None (Some SIGKILL) (js "b")]
       None).1.1
    = Return (Job.mk_result None
                [exited (js "hi") [] (js "a");
                 RunResult.mk [] [] None (Some SIGKILL) (js "b")]
                [("status", Str Verdict.WA); ("stdout", Str (js "hi"));
                 ("stdin", Str (js "a")); ("expected_output", Str (js "hi"))]%string).
Proof.
  split.
  { split; [done|]. split; [done|].
    intros eo e Heo He. cbn in Heo. injection Heo as <-.
    cbn in He. by injection He as <-. }
  split; [reflexivity|].
  split.
  { split; [done|]. split; [done|].
    intros eo e Heo He. cbn in Heo. injection Heo as <-.
    cbn in He. by injection He as <-. }
  split; [|reflexivity].
  by intros (_ & Hsig & _).
Qed.

(** C2.  [evaluate] trims both sides but compares the trimmed [stdout]
    with [this.expected_output[i]] as given: with [stdout] "hi" and the
    expected output "hi" followed by a line feed, which are equal once
    trimmed, it returns WA, and the verdict carries "hi" as [stdout] and
    "hi" as [expected_output]. *)
Example evaluate_compares_untrimmed_expected :
  replace_edges (js "hi") = replace_edges (js "hi" ++ LF)
  ∧ (Job.evaluate (sample_job python (js "a.py") [js "x"] (Some [js "hi" ++ LF]) EXECUTED)
       [exited (js "hi") [] (js "x")] None).1.1
    = Return (Job.mk_result None [exited (js "hi") [] (js "x")]
                (Job.run_verdict Verdict.WA (Str (js "hi")) (Str (js "x"))
                   (Str (js "hi")))).
Proof. split; reflexivity. Qed.

(** One turn of the loop depends on [run] through [run[i]] alone, and
    what it writes there it writes again: on any array holding at [i] what
    the turn left there, the turn changes nothing and ends the same way. *)
Lemma evaluate_body_stable this i (run run1 run2 : list RunResult.t) o :
  is_Some (run !! i) →
  Job.evaluate_body this i run = (run1, o) →
  run2 !! i = run1 !! i →
  Job.evaluate_body this i run2 = (run2, o).
Proof.
  intros [r Hr] Hbody H2. unfold Job.evaluate_body in *. rewrite Hr in Hbody.
  assert (Hi : (i < length run)%nat) by by eapply lookup_lt_Some.
  destruct (truthy (RunResult.stderr r)) eqn:Herr.
  { simplify_eq. rewrite H2, Hr, Herr. done. }
  destruct (is_SIGKILL (RunResult.signal r)) eqn:Hsig.
  { simplify_eq. rewrite H2, Hr, Herr, Hsig. done. }
  destruct (Job.expected_output this) as [eo|] eqn:Hexp.
  - assert (H1 : run1 !! i = Some (trimmed r)).
    { destruct (index eo i); [simplify_eq; by apply list_lookup_insert_eq..| ].
      case_bool_decide; simplify_eq; by apply list_lookup_insert_eq. }
    rewrite H2, H1.
    replace (RunResult.stderr (trimmed r)) with (RunResult.stderr r) by done.
    replace (RunResult.signal (trimmed r)) with (RunResult.signal r) by done.
    rewrite Herr, Hsig.
    change (RunResult.set_stdout (trimmed r) (replace_edges (RunResult.stdout (trimmed r))))
      with (trimmed (trimmed r)).
    rewrite trimmed_idemp.
    rewrite (list_insert_id run2 i (trimmed r)) by by rewrite H2.
    destruct (index eo i); [by simplify_eq..|].
    change (RunResult.set_stdout r (replace_edges (RunResult.stdout r)))
      with (trimmed r) in Hbody.
    case_bool_decide; by simplify_eq.
  - simplify_eq. rewrite H2, Hr, Herr, Hsig. done.
Qed.

(** One turn of the loop: what it leaves in [run]. *)
Lemma evaluate_body_frame this i (run run1 : list RunResult.t) o :
  Job.evaluate_body this i run = (run1, o) →
  length run1 = length run
  ∧ (∀ j, j ≠ i → run1 !! j = run !! j)
  ∧ (∀ j r, run !! j = Some r → run1 !! j = Some r ∨ run1 !! j = Some (trimmed r))
  ∧ (Job.expected_output this = None → run1 = run).
Proof.
  intros Hbody. unfold Job.evaluate_body in Hbody.
  destruct (run !! i) as [r|] eqn:Hr; [|simplify_eq; repeat split; auto].
  destruct (truthy (RunResult.stderr r)); [simplify_eq; repeat split; auto|].
  destruct (is_SIGKILL (RunResult.signal r)); [simplify_eq; repeat split; auto|].
  destruct (Job.expected_output this) as [eo|]; [|simplify_eq; repeat split; auto].
  assert (run1 = <[i:=trimmed r]> run) as ->.
  { destruct (index eo i); [by simplify_eq..|]. case_bool_decide; by simplify_eq. }
  split; [by rewrite length_insert|].
  split; [intros j Hj; by apply list_lookup_insert_ne|].
  split; [|done].
  intros j rj Hj. destruct (decide (j = i)) as [->|Hne].
  - right. simplify_eq. apply list_lookup_insert_eq. by eapply lookup_lt_Some.
  - left. by rewrite list_lookup_insert_ne.
Qed.

(** The loop from [i]: what it leaves in [run]. *)
Lemma evaluate_loop_frame this n : ∀ i (run run' : list RunResult.t) c,
  Job.evaluate_loop this n i run = (c, run') →
  length run' = length run
  ∧ (∀ j, (j < i)%nat → run' !! j = run !! j)
  ∧ (∀ j r, run !! j = Some r → run' !! j = Some r ∨ run' !! j = Some (trimmed r))
  ∧ (Job.expected_output this = None → run' = run).
Proof.
  induction n as [|n IH]; intros i run run' c Hloop.
  { simpl in Hloop. simplify_eq. repeat split; auto. }
  cbn [Job.evaluate_loop] in Hloop.
  destruct (Job.evaluate_body this i run) as [run1 o] eqn:Hbody.
  apply evaluate_body_frame in Hbody as (Hlen1 & Hother & Hentry & Hnone).
  destruct o as [c1|].
  { simplify_eq. split; [done|]. split; [|done].
    intros j Hj. apply Hother. lia. }
  apply IH in Hloop as (Hlen' & Hlow & Hentry' & Hnone').
  split; [congruence|].
  split; [intros j Hj; rewrite Hlow by lia; apply Hother; lia|].
  split; [|intros Hexp; rewrite Hnone', Hnone; done].
  intros j r Hj.
  destruct (decide (j = i)) as [->|Hne].
  - rewrite Hlow by lia. by apply Hentry.
  - rewrite <- Hother in Hj by done. by apply Hentry'.
Qed.

(** Run again on the array it left, the loop leaves the array as it is
    and ends the same way. *)
Lemma evaluate_loop_again this n : ∀ i (run run' : list RunResult.t) c,
  (i + n = length run)%nat →
  Job.evaluate_loop this n i run = (c, run') →
  Job.evaluate_loop this n i run' = (c, run').
Proof.
  induction n as [|n IH]; intros i run run' c Hlen Hloop.
  { simpl in *. by simplify_eq. }
  cbn [Job.evaluate_loop] in *.
  destruct (Job.evaluate_body this i run) as [run1 o] eqn:Hbody.
  assert (Hi : is_Some (run !! i)) by (apply lookup_lt_is_Some_2; lia).
  destruct (evaluate_body_frame _ _ _ _ _ Hbody) as (Hlen1 & _).
  destruct o as [c1|].
  - simplify_eq.
    by rewrite (evaluate_body_stable this i run run' run' (Some c) Hi Hbody eq_refl).
  - destruct (evaluate_loop_frame _ _ _ _ _ _ Hloop) as (_ & Hlow & _).
    rewrite (evaluate_body_stable this i run run1 run' None Hi Hbody)
      by (apply Hlow; lia).
    apply (IH (S i) run1); [lia|done].
Qed.

(** Which entries the loop from [i] writes: entry [k] holds the trimmed
    result exactly when the loop reaches its comparison, that is when
    expected output was given, every test case from [i] up to [k] passed
    the three tests and test case [k] passed the first two; every other
    entry is as it was. *)
Lemma evaluate_loop_writes this n : ∀ i (run run' : list RunResult.t) c,
  (i + n = length run)%nat →
  Job.evaluate_loop this n i run = (c, run') →
  ∀ k r, (i ≤ k)%nat → run !! k = Some r →
    let reached :=
      is_Some (Job.expected_output this)
      ∧ (∀ j rj, (i ≤ j)%nat → (j < k)%nat → run !! j = Some rj →
           RunResult.stderr rj = []
           ∧ RunResult.signal rj ≠ Some SIGKILL
           ∧ ∀ eo, Job.expected_output this = Some eo →
                   eo !! j = Some (replace_edges (RunResult.stdout rj)))
      ∧ RunResult.stderr r = []
      ∧ RunResult.signal r ≠ Some SIGKILL in
    (reached ∧ run' !! k = Some (trimmed r)) ∨ (¬ reached ∧ run' !! k = Some r).
Proof.
  induction n as [|n IH]; intros i run run' c Hlen Hloop k r Hik Hk; cbn zeta.
  { apply lookup_lt_Some in Hk. lia. }
  cbn [Job.evaluate_loop] in Hloop.
  destruct (lookup_lt_is_Some_2 run i) as [ri Hri]; [lia|].
  (* the turn at [i] leaves the function with [run] as it is *)
  assert (Hstop : run' = run →
    (RunResult.stderr ri ≠ [] ∨ RunResult.signal ri = Some SIGKILL
     ∨ Job.expected_output this = None) →
    (¬ (is_Some (Job.expected_output this)
        ∧ (∀ j rj, (i ≤ j)%nat → (j < k)%nat → run !! j = Some rj →
             RunResult.stderr rj = []
             ∧ RunResult.signal rj ≠ Some SIGKILL
             ∧ ∀ eo, Job.expected_output this = Some eo →
                     eo !! j = Some (replace_edges (RunResult.stdout rj)))
        ∧ RunResult.stderr r = []
        ∧ RunResult.signal r ≠ Some SIGKILL)
     ∧ run' !! k = Some r)).
  { intros -> Hwhy. split; [|done].
    intros ([eo Heo] & Hbefore & Herr & Hsig).
    destruct (decide (k = i)) as [->|Hne].
    - assert (r = ri) as -> by congruence.
      destruct Hwhy as [?|[?|?]]; [done|done|congruence].
    - destruct (Hbefore i ri) as (Herri & Hsigi & _); [lia|lia|done|].
      destruct Hwhy as [?|[?|?]]; [done|done|congruence]. }
  unfold Job.evaluate_body in Hloop. rewrite Hri in Hloop.
  destruct (truthy (RunResult.stderr ri)) eqn:Herr.
  { right. simplify_eq. apply Hstop; [done|]. left. by apply truthy_true. }
  destruct (is_SIGKILL (RunResult.signal ri)) eqn:Hsig.
  { right. simplify_eq. apply Hstop; [done|]. right; left. by apply is_SIGKILL_true. }
  apply truthy_false in Herr. apply is_SIGKILL_false in Hsig.
  destruct (Job.expected_output this) as [eo|] eqn:Hexp.
  2:{ right. destruct (evaluate_loop_frame _ _ _ _ _ _ Hloop) as (_ & _ & _ & Hnone).
      split; [|by rewrite (Hnone Hexp)].
      intros ([eo Heo] & _). done. }
  change (RunResult.set_stdout ri (replace_edges (RunResult.stdout ri)))
    with (trimmed ri) in Hloop.
  (* the turn at [i] writes the trimmed result; what follows when it
     leaves the function there *)
  assert (Hleave : run' = <[i:=trimmed ri]> run →
    eo !! i ≠ Some (replace_edges (RunResult.stdout ri)) →
    ((is_Some (Some eo)
      ∧ (∀ j rj, (i ≤ j)%nat → (j < k)%nat → run !! j = Some rj →
           RunResult.stderr rj = []
           ∧ RunResult.signal rj ≠ Some SIGKILL
           ∧ ∀ eo0, Some eo = Some eo0 →
                   eo0 !! j = Some (replace_edges (RunResult.stdout rj)))
      ∧ RunResult.stderr r = []
      ∧ RunResult.signal r ≠ Some SIGKILL)
     ∧ run' !! k = Some (trimmed r))
    ∨ (¬ (is_Some (Some eo)
          ∧ (∀ j rj, (i ≤ j)%nat → (j < k)%nat → run !! j = Some rj →
               RunResult.stderr rj = []
               ∧ RunResult.signal rj ≠ Some SIGKILL
               ∧ ∀ eo0, Some eo = Some eo0 →
                       eo0 !! j = Some (replace_edges (RunResult.stdout rj)))
          ∧ RunResult.stderr r = []
          ∧ RunResult.signal r ≠ Some SIGKILL)
       ∧ run' !! k = Some r)).
  { intros -> Hmiss. destruct (decide (k = i)) as [->|Hne].
    - assert (r = ri) as -> by congruence. left.
      split; [|apply list_lookup_insert_eq; by eapply lookup_lt_Some].
      split; [done|]. split; [intros; lia|done].
    - right. split; [|by rewrite list_lookup_insert_ne].
      intros (_ & Hbefore & _).
      destruct (Hbefore i ri) as (_ & _ & Hcmp); [lia|lia|done|].
      by specialize (Hcmp eo eq_refl). }
  unfold index in Hloop.
  destruct (eo !! i) as [e|] eqn:He.
  2:{ simplify_eq. by apply Hleave. }
  case_bool_decide as Hcmp.
  { simplify_eq. apply Hleave; [done|]. intros [= ->]. by apply Hcmp. }
  assert (e = replace_edges (RunResult.stdout ri)) as ->.
  { by injection Hcmp. }
  destruct (evaluate_loop_frame _ _ _ _ _ _ Hloop) as (_ & Hlow & _).
  destruct (decide (k = i)) as [->|Hne].
  - assert (r = ri) as -> by congruence. left. split.
    + split; [done|]. split; [intros; lia|done].
    + rewrite Hlow by lia. apply list_lookup_insert_eq. by eapply lookup_lt_Some.
  - assert (Hk1 : <[i:=trimmed ri]> run !! k = Some r) by by rewrite list_lookup_insert_ne.
    assert (Hlen1 : (S i + n = length (<[i:=trimmed ri]> run))%nat)
      by (rewrite length_insert; lia).
    assert (Hik1 : (S i ≤ k)%nat) by lia.
    destruct (IH (S i) _ _ _ Hlen1 Hloop k r Hik1 Hk1)
      as [[Hreached Hout]|[Hnot Hout]]; cbn zeta in *.
    + left. split; [|done].
      destruct Hreached as (_ & Hbefore & Herrk & Hsigk).
      split; [done|]. split; [|done].
      intros j rj Hij Hjk Hj. destruct (decide (j = i)) as [->|Hji].
      * assert (rj = ri) as -> by congruence.
        split; [done|]. split; [done|]. by intros eo0 [= <-].
      * apply Hbefore; [lia|lia|]. by rewrite list_lookup_insert_ne.
    + right. split; [|done].
      intros (_ & Hbefore & Herrk & Hsigk). apply Hnot.
      split; [done|]. split; [|done].
      intros j rj Hij Hjk Hj. apply Hbefore; [lia|lia|].
      rewrite list_lookup_insert_ne in Hj by lia. done.
Qed.

(** C5.  [evaluate] leaves [this] (its [stdin] and [expected_output]
    included) as it was, and it keeps the length of [run] and, in every
    entry, the fields other than [stdout].  It replaces the [stdout] of a
    test case by its trimmed value exactly when it reaches the comparison
    of that test case -- expected output was given, every earlier test
    case passed the three tests, and this one has an empty [stderr] and
    was not killed -- and leaves every other entry as it was; [run] is
    not touched at all when no expected output was given.  Called again
    on the same objects it changes nothing more and completes the same
    way, with the same verdict. *)
Theorem evaluate_frame
    (this : Job.t) (run : list RunResult.t) (compile : option RunResult.t) :
  let out := Job.evaluate this run compile in
  out.1.2 = this
  ∧ length out.2 = length run
  ∧ (∀ i r, run !! i = Some r →
       ∃ r', out.2 !! i = Some r'
         ∧ RunResult.stderr r' = RunResult.stderr r
         ∧ RunResult.code r' = RunResult.code r
         ∧ RunResult.signal r' = RunResult.signal r
         ∧ RunResult.stdin r' = RunResult.stdin r
         ∧ (RunResult.stdout r' = RunResult.stdout r
            ∨ RunResult.stdout r' = replace_edges (RunResult.stdout r)))
  ∧ (∀ i r, run !! i = Some r →
       (compared this run i → out.2 !! i = Some (trimmed r))
       ∧ (¬ compared this run i → out.2 !! i = Some r))
  ∧ (Job.expected_output this = None → out.2 = run)
  ∧ Job.evaluate this out.2 compile = out.
Proof.
  unfold Job.evaluate.
  destruct (Job.evaluate_loop this (length run) 0 run) as [c run'] eqn:Hloop.
  cbn [fst snd].
  destruct (evaluate_loop_frame _ _ _ _ _ _ Hloop) as (Hlen & _ & Hentry & Hnone).
  split; [done|]. split; [done|]. split; [|split; [|split; [done|]]].
  - intros i r Hr. destruct (Hentry i r Hr) as [Hi|Hi].
    + exists r. repeat split; auto.
    + exists (trimmed r). repeat split; auto.
  - intros i r Hr.
    assert (Hiff : compared this run i ↔
      is_Some (Job.expected_output this)
      ∧ (∀ j rj, (0 ≤ j)%nat → (j < i)%nat → run !! j = Some rj →
           RunResult.stderr rj = []
           ∧ RunResult.signal rj ≠ Some SIGKILL
           ∧ ∀ eo, Job.expected_output this = Some eo →
                   eo !! j = Some (replace_edges (RunResult.stdout rj)))
      ∧ RunResult.stderr r = []
      ∧ RunResult.signal r ≠ Some SIGKILL).
    { unfold compared. split.
      - intros (Hexp & Hbefore & r0 & Hr0 & Herr & Hsig).
        assert (r0 = r) as -> by congruence.
        split; [done|]. split; [|done]. intros j rj _. apply Hbefore.
      - intros (Hexp & Hbefore & Herr & Hsig).
        split; [done|]. split; [|by exists r].
        intros j rj. apply Hbefore. lia. }
    destruct (evaluate_loop_writes this (length run) 0 run run' c eq_refl Hloop
                i r (Nat.le_0_l i) Hr) as [[Hreached Hout]|[Hnot Hout]]; cbn zeta in *.
    + split; [done|]. intros Hn. exfalso. by apply Hn, Hiff.
    + split; [|done]. intros Hc. exfalso. by apply Hnot, Hiff.
  - rewrite Hlen.
    by rewrite (evaluate_loop_again this (length run) 0 run run' c eq_refl Hloop).
Qed.

(** [evaluate] writes the trimmed [stdout] back into the [run] array it
    was given: a result whose [stdout] is " hi " holds "hi" afterwards. *)
Lemma evaluate_mutates_run :
  (Job.evaluate (sample_job python (js "a.py") [js "x"] (Some [js "hi"]) EXECUTED)
     [exited (js " hi ") [] (js "x")] None).2
  = [exited (js "hi") [] (js "x")]
  ∧ [exited (js "hi") [] (js "x")] ≠ [exited (js " hi ") [] (js "x")].
Proof. split; [reflexivity|discriminate]. Qed.

(* ================================================================== *)
(** ** The identity pool and the constructor *)
(* ================================================================== *)

Lemma allocate_S config n pool :
  allocate config (S n) pool = (Job.shuffle_ids config (allocate config n pool)).2.
Proof. reflexivity. Qed.

(** After [n] allocations from the initial counters, each counter is [n]
    modulo the size of its range. *)
Lemma allocate_counters config n :
  0 < uid_range config → 0 < gid_range config →
  Pool.uid (allocate config n Pool.initial) = Z.of_nat n mod uid_range config
  ∧ Pool.gid (allocate config n Pool.initial) = Z.of_nat n mod gid_range config.
Proof.
  intros Hu Hg. induction n as [|n [IHu IHg]].
  - simpl. by rewrite !Z.mod_0_l by lia.
  - rewrite allocate_S. unfold Job.shuffle_ids. cbn [snd Pool.uid Pool.gid].
    fold (uid_range config). fold (gid_range config).
    rewrite IHu, IHg, Nat2Z.inj_succ.
    rewrite !Z.rem_mod_nonneg by
      (try lia; pose proof (Z.mod_pos_bound (Z.of_nat n) (uid_range config) Hu);
       pose proof (Z.mod_pos_bound (Z.of_nat n) (gid_range config) Hg); lia).
    split; rewrite Z.add_mod_idemp_l by lia; f_equal; lia.
Qed.

(** Two counts less than a range apart fall on different counters. *)
Lemma mod_shift_ne (n k m : Z) :
  0 <= n → 0 < k < m → (n + k) mod m ≠ n mod m.
Proof.
  intros Hn Hk Heq.
  assert (Hm : ((n + k) - n) mod m = 0).
  { rewrite Zminus_mod, Heq, Z.sub_diag. apply Z.mod_0_l. lia. }
  replace (n + k - n) with k in Hm by lia.
  rewrite Z.mod_small in Hm by lia. lia.
Qed.

(** C8.  With [uid_max >= uid_min] and [gid_max >= gid_min], after any
    number of allocations from the initial counters the next allocation
    returns [(uid_min + c_u, gid_min + c_g)] for the current counters and
    advances each by one modulo the size of its range; a counter is back
    at its value after exactly as many allocations as its range holds,
    and not before. *)
Theorem shuffle_ids_rotation (config : Config.t) (n : nat) :
  Config.runner_uid_min config <= Config.runner_uid_max config →
  Config.runner_gid_min config <= Config.runner_gid_max config →
  let pool := allocate config n Pool.initial in
  (Job.shuffle_ids config pool).1
    = (Config.runner_uid_min config + Pool.uid pool,
       Config.runner_gid_min config + Pool.gid pool)
  ∧ Pool.uid (Job.shuffle_ids config pool).2
      = (Pool.uid pool + 1) mod uid_range config
  ∧ Pool.gid (Job.shuffle_ids config pool).2
      = (Pool.gid pool + 1) mod gid_range config
  ∧ Pool.uid (allocate config (n + Z.to_nat (uid_range config)) Pool.initial)
      = Pool.uid pool
  ∧ Pool.gid (allocate config (n + Z.to_nat (gid_range config)) Pool.initial)
      = Pool.gid pool
  ∧ (∀ k, (0 < k < Z.to_nat (uid_range config))%nat →
       Pool.uid (allocate config (n + k) Pool.initial) ≠ Pool.uid pool)
  ∧ (∀ k, (0 < k < Z.to_nat (gid_range config))%nat →
       Pool.gid (allocate config (n + k) Pool.initial) ≠ Pool.gid pool).
Proof.
  intros Hu Hg pool.
  assert (Hu' : 0 < uid_range config) by (unfold uid_range; lia).
  assert (Hg' : 0 < gid_range config) by (unfold gid_range; lia).
  assert (Hc : ∀ m, Pool.uid (allocate config m Pool.initial) = Z.of_nat m mod uid_range config
                  ∧ Pool.gid (allocate config m Pool.initial) = Z.of_nat m mod gid_range config)
    by (intros m; by apply allocate_counters).
  destruct (Hc n) as [Hnu Hng]. destruct (Hc (S n)) as [Hsu Hsg].
  rewrite allocate_S in Hsu, Hsg. fold pool in Hnu, Hng, Hsu, Hsg.
  split; [done|].
  split; [rewrite Hsu, Hnu, Z.add_mod_idemp_l by lia; f_equal; lia|].
  split; [rewrite Hsg, Hng, Z.add_mod_idemp_l by lia; f_equal; lia|].
  split.
  { rewrite (proj1 (Hc _)), Hnu, Nat2Z.inj_add, Z2Nat.id by lia.
    rewrite <- Z.add_mod_idemp_r, Z.mod_same, Z.add_0_r by lia. done. }
  split.
  { rewrite (proj2 (Hc _)), Hng, Nat2Z.inj_add, Z2Nat.id by lia.
    rewrite <- Z.add_mod_idemp_r, Z.mod_same, Z.add_0_r by lia. done. }
  split; intros k Hk.
  - rewrite (proj1 (Hc _)), Hnu, Nat2Z.inj_add. apply mod_shift_ne; lia.
  - rewrite (proj2 (Hc _)), Hng, Nat2Z.inj_add. apply mod_shift_ne; lia.
Qed.

(** The instance of C8 on the ranges 1001..1003 and 2001..2002, after
    four allocations: the fifth job gets (1002, 2001). *)
Lemma shuffle_ids_rotation_witness :
  (Job.shuffle_ids sample_config (allocate sample_config 4 Pool.initial)).1
  = (1002, 2001).
Proof.
  destruct (shuffle_ids_rotation sample_config 4) as (Hids & _);
    [vm_compute; discriminate|vm_compute; discriminate|].
  rewrite Hids. reflexivity.
Defined.

(** C10.  When [main] is not the name of one of the files, the
    constructor throws and the counters of the pool are those it was
    given: no identity is consumed. *)
Theorem constructor_rejects_before_allocation
    (config : Config.t) (jobs uuid : jsstring) (spec : JobSpec.t) (pool : Pool.t) :
  JobSpec.main spec ∉ map FileSpec.name (JobSpec.files spec) →
  Job.constructor config jobs uuid spec pool
  = (Throw (Error (Job.main_not_written (JobSpec.main spec))), pool).
Proof.
  intros Hmain. unfold Job.constructor, includes.
  by rewrite bool_decide_eq_false_2.
Qed.

(** The instance of C10 on a spec whose [main] is "b.py" and whose only
    file is "a.py", with the counters at (1, 0). *)
Lemma constructor_rejects_before_allocation_witness :
  (Job.constructor sample_config (js "jobs") (js "uuid-2")
     (JobSpec.mk python [FileSpec.mk (js "a.py") (js "source")] [] [] None
        (Timeouts.mk 10000 3000) (js "b.py") (js "alias"))
     (Pool.mk 1 0)).2
  = Pool.mk 1 0.
Proof.
  rewrite (constructor_rejects_before_allocation sample_config (js "jobs") (js "uuid-2")
             (JobSpec.mk python [FileSpec.mk (js "a.py") (js "source")] [] [] None
                (Timeouts.mk 10000 3000) (js "b.py") (js "alias"))
             (Pool.mk 1 0)).
  - reflexivity.
  - cbn [map JobSpec.files JobSpec.main FileSpec.name].
    intros H%list_elem_of_singleton. discriminate H.
Defined.

(* ================================================================== *)
(** ** The output cap of [safe_call] *)
(* ================================================================== *)

Section OutputCap.

Variable config : Config.t.

Lemma drain_snoc evs e :
  Job.drain config (evs ++ [e]) = Job.on_event config (Job.drain config evs) e.
Proof. unfold Job.drain. by rewrite fold_left_app. Qed.

(** A buffer is empty or within the cap plus the length of one of the
    chunks received on its pipe. *)
Lemma drain_bounded evs :
  (Process.stdout (Job.drain config evs) = []
   ∨ ∃ d, Process.StdoutData d ∈ evs
          ∧ Z.of_nat (length (Process.stdout (Job.drain config evs)))
            <= Config.output_max_size config + Z.of_nat (length d))
  ∧ (Process.stderr (Job.drain config evs) = []
     ∨ ∃ d, Process.StderrData d ∈ evs
            ∧ Z.of_nat (length (Process.stderr (Job.drain config evs)))
              <= Config.output_max_size config + Z.of_nat (length d)).
Proof.
  induction evs as [|e evs [IHo IHe]] using rev_ind; [by split; left|].
  rewrite drain_snoc.
  assert (Hmono : ∀ (P : Process.event → Prop),
    (∃ x, x ∈ evs ∧ P x) → ∃ x, x ∈ evs ++ [e] ∧ P x).
  { intros P (x & Hx & HP). exists x. split; [|done]. apply elem_of_app. by left. }
  destruct e as [data|data|]; cbn [Job.on_event].
  - unfold Job.on_stdout_data.
    destruct (Z.gtb_spec (Z.of_nat (length (Process.stdout (Job.drain config evs)))) (Config.output_max_size config))
      as [Hgt|Hle]; cbn [Process.stdout Process.stderr].
    + split.
      * destruct IHo as [?|(d & Hd & Hb)]; [by left|right].
        exists d. split; [apply elem_of_app; by left|done].
      * destruct IHe as [?|(d & Hd & Hb)]; [by left|right].
        exists d. split; [apply elem_of_app; by left|done].
    + split.
      * right. exists data. split; [apply elem_of_app; right; by apply list_elem_of_singleton|].
        rewrite length_app. lia.
      * destruct IHe as [?|(d & Hd & Hb)]; [by left|right].
        exists d. split; [apply elem_of_app; by left|done].
  - unfold Job.on_stderr_data.
    destruct (Z.gtb_spec (Z.of_nat (length (Process.stderr (Job.drain config evs)))) (Config.output_max_size config))
      as [Hgt|Hle]; cbn [Process.stdout Process.stderr].
    + split.
      * destruct IHo as [?|(d & Hd & Hb)]; [by left|right].
        exists d. split; [apply elem_of_app; by left|done].
      * destruct IHe as [?|(d & Hd & Hb)]; [by left|right].
        exists d. split; [apply elem_of_app; by left|done].
    + split.
      * destruct IHo as [?|(d & Hd & Hb)]; [by left|right].
        exists d. split; [apply elem_of_app; by left|done].
      * right. exists data. split; [apply elem_of_app; right; by apply list_elem_of_singleton|].
        rewrite length_app. lia.
  - unfold Job.on_kill_timeout. cbn [Process.stdout Process.stderr]. split.
    + destruct IHo as [?|(d & Hd & Hb)]; [by left|right].
      exists d. split; [apply elem_of_app; by left|done].
    + destruct IHe as [?|(d & Hd & Hb)]; [by left|right].
      exists d. split; [apply elem_of_app; by left|done].
Qed.

(** Past the cap, a buffer no longer changes. *)
Lemma stdout_frozen evs : ∀ c,
  Config.output_max_size config < Z.of_nat (length (Process.stdout c)) →
  Process.stdout (fold_left (Job.on_event config) evs c) = Process.stdout c.
Proof.
  induction evs as [|e evs IH]; intros c Hc; [done|].
  cbn [fold_left].
  assert (He : Process.stdout (Job.on_event config c e) = Process.stdout c).
  { destruct e as [data|data|]; cbn [Job.on_event]; [|
      unfold Job.on_stderr_data; by destruct (_ >? _)|done].
    unfold Job.on_stdout_data.
    destruct (Z.gtb_spec (Z.of_nat (length (Process.stdout c))) (Config.output_max_size config)); [done|lia]. }
  rewrite IH; [done|]. by rewrite He.
Qed.

Lemma stderr_frozen evs : ∀ c,
  Config.output_max_size config < Z.of_nat (length (Process.stderr c)) →
  Process.stderr (fold_left (Job.on_event config) evs c) = Process.stderr c.
Proof.
  induction evs as [|e evs IH]; intros c Hc; [done|].
  cbn [fold_left].
  assert (He : Process.stderr (Job.on_event config c e) = Process.stderr c).
  { destruct e as [data|data|]; cbn [Job.on_event]; [
      unfold Job.on_stdout_data; by destruct (_ >? _)| |done].
    unfold Job.on_stderr_data.
    destruct (Z.gtb_spec (Z.of_nat (length (Process.stderr c))) (Config.output_max_size config)); [done|lia]. }
  rewrite IH; [done|]. by rewrite He.
Qed.

End OutputCap.

(** C7.  Each buffer of a result of [safe_call] is empty or no longer
    than [output_max_size] plus the length of one of the chunks its pipe
    delivered.  A chunk that arrives while the buffer holds at most
    [output_max_size] units -- exactly [output_max_size] included -- is
    appended whole and no kill is sent; a chunk that arrives once the
    buffer holds more sends SIGKILL to the child and is dropped.  So once
    a buffer exceeds [output_max_size] it no longer changes: the result
    keeps what was buffered when the cap was crossed, the crossing chunk
    included. *)
Theorem safe_call_output_cap (config : Config.t) :
  (∀ child this file args timeout stdin w r,
     (Job.safe_call config child this file args timeout stdin w).1.2 = Return r →
     let b := child (Process.spawned w)
                (Job.spawn_request config this file args timeout stdin) in
     (RunResult.stdout r = []
      ∨ ∃ d, Process.StdoutData d ∈ Process.events b
             ∧ Z.of_nat (length (RunResult.stdout r))
               <= Config.output_max_size config + Z.of_nat (length d))
     ∧ (RunResult.stderr r = []
        ∨ ∃ d, Process.StderrData d ∈ Process.events b
               ∧ Z.of_nat (length (RunResult.stderr r))
                 <= Config.output_max_size config + Z.of_nat (length d)))
  ∧ (∀ c data,
       Z.of_nat (length (Process.stdout c)) <= Config.output_max_size config →
       Job.on_stdout_data config c data
       = Process.mk_capture (Process.stdout c ++ data) (Process.stderr c)
           (Process.kills c) (Process.group_killed c))
  ∧ (∀ c data,
       Z.of_nat (length (Process.stderr c)) <= Config.output_max_size config →
       Job.on_stderr_data config c data
       = Process.mk_capture (Process.stdout c) (Process.stderr c ++ data)
           (Process.kills c) (Process.group_killed c))
  ∧ (∀ c data,
       Config.output_max_size config < Z.of_nat (length (Process.stdout c)) →
       Job.on_stdout_data config c data
       = Process.mk_capture (Process.stdout c) (Process.stderr c)
           (S (Process.kills c)) (Process.group_killed c))
  ∧ (∀ c data,
       Config.output_max_size config < Z.of_nat (length (Process.stderr c)) →
       Job.on_stderr_data config c data
       = Process.mk_capture (Process.stdout c) (Process.stderr c)
           (S (Process.kills c)) (Process.group_killed c))
  ∧ (∀ evs evs',
       Config.output_max_size config
         < Z.of_nat (length (Process.stdout (Job.drain config evs))) →
       Process.stdout (Job.drain config (evs ++ evs'))
       = Process.stdout (Job.drain config evs))
  ∧ (∀ evs evs',
       Config.output_max_size config
         < Z.of_nat (length (Process.stderr (Job.drain config evs))) →
       Process.stderr (Job.drain config (evs ++ evs'))
       = Process.stderr (Job.drain config evs)).
Proof.
  split.
  { intros child this file args timeout stdin w r Hr b.
    unfold Job.safe_call in Hr. cbn [fst snd] in Hr. fold b in Hr.
    unfold Job.settle in Hr.
    destruct (Process.ends b); [|done..]. injection Hr as <-.
    cbn [RunResult.stdout RunResult.stderr Job.exit_cleanup Process.stdout Process.stderr].
    apply drain_bounded. }
  split.
  { intros c data Hc. unfold Job.on_stdout_data.
    destruct (Z.gtb_spec (Z.of_nat (length (Process.stdout c)))
                (Config.output_max_size config)); [lia|done]. }
  split.
  { intros c data Hc. unfold Job.on_stderr_data.
    destruct (Z.gtb_spec (Z.of_nat (length (Process.stderr c)))
                (Config.output_max_size config)); [lia|done]. }
  split.
  { intros c data Hc. unfold Job.on_stdout_data.
    destruct (Z.gtb_spec (Z.of_nat (length (Process.stdout c)))
                (Config.output_max_size config)); [done|lia]. }
  split.
  { intros c data Hc. unfold Job.on_stderr_data.
    destruct (Z.gtb_spec (Z.of_nat (length (Process.stderr c)))
                (Config.output_max_size config)); [done|lia]. }
  split.
  - intros evs evs' Hc. unfold Job.drain at 1. rewrite fold_left_app.
    by apply stdout_frozen.
  - intros evs evs' Hc. unfold Job.drain at 1. rewrite fold_left_app.
    by apply stderr_frozen.
Qed.

(** The instance of C7 with [output_max_size = 4]: a buffer holding
    exactly four units takes the next chunk and sends no kill. *)
Lemma safe_call_output_cap_witness :
  Job.on_stdout_data sample_config (Process.mk_capture (js "abcd") [] 0 false) (js "ef")
  = Process.mk_capture (js "abcdef") [] 0 false.
Proof.
  rewrite (proj1 (proj2 (safe_call_output_cap sample_config))).
  - reflexivity.
  - vm_compute. discriminate.
Defined.

(** With [output_max_size = 4] and the chunks "abcd" and "ef" on stdout:
    the buffer held "abcd" before the cap was crossed, the result holds
    "abcdef", and no kill was sent although the buffer exceeds the cap. *)
Lemma safe_call_keeps_crossing_chunk :
  Job.settle sample_config
    (Process.mk_behaviour [Process.StdoutData (js "abcd"); Process.StdoutData (js "ef")]
       (Process.Exit (Some 0) None)) (js "in")
  = Return (exited (js "abcdef") [] (js "in"))
  ∧ Process.stdout (Job.drain sample_config [Process.StdoutData (js "abcd")]) = js "abcd"
  ∧ Z.of_nat (length (js "abcd")) <= Config.output_max_size sample_config
  ∧ Config.output_max_size sample_config < Z.of_nat (length (js "abcdef"))
  ∧ Process.kills
      (Job.drain sample_config
         [Process.StdoutData (js "abcd"); Process.StdoutData (js "ef")]) = 0%nat
  ∧ js "abcdef" ≠ js "abcd".
Proof. repeat split; try reflexivity; vm_compute; discriminate. Qed.

(* ================================================================== *)
(** ** [execute] *)
(* ================================================================== *)

Section ExecuteFacts.

Variable config : Config.t.
Variable child : nat -> Process.request -> Process.behaviour.
Variable finish : nat -> nat.

(** [execute] by its phases. *)
Lemma execute_phases (this : Job.t) (w : Process.world) :
  Job.execute config child finish this w =
  if bool_decide (Job.state this ≠ PRIMED) then
    (Throw (Error (Job.must_be_primed (Job.state this))), this, w)
  else
    let finish_with (compile : option RunResult.t)
          (d : completion (list RunResult.t) * Process.world) :=
      match d.1 with
      | Throw e => (Throw e, run_phase_this this, d.2)
      | Return run =>
          let out :=
            Job.evaluate (Job.set_state (run_phase_this this) EXECUTED) run compile in
          (out.1.1, out.1.2, d.2)
      end in
    if Runtime.compiled (Job.runtime this) then
      match compile_outcome config child this w with
      | Throw e => (Throw e, this, compiled_world config this w)
      | Return c =>
          if truthy (RunResult.stderr c) || is_SIGKILL (RunResult.signal c) then
            (Return (Job.mk_result (Some c) [] (Job.compilation_verdict c)), this,
             compiled_world config this w)
          else finish_with (Some c) (dispatch config child finish this (compiled_world config this w))
      end
    else finish_with None (dispatch config child finish this w).
Proof.
  unfold Job.execute, dispatch, run_phase_this.
  case_bool_decide as Hstate; [done|].
  destruct (Runtime.compiled (Job.runtime this)) eqn:Hcompiled.
  - unfold Job.safe_call, Job.await. cbn [fst snd Process.trace Process.spawned].
    rewrite <- app_assoc. cbn [app].
    fold (compile_request config this). fold (compile_outcome config child this w).
    fold (compiled_world config this w).
    destruct (compile_outcome config child this w) as [c|e]; [|done].
    cbn [andb]. 
    destruct (truthy (RunResult.stderr c) || is_SIGKILL (RunResult.signal c)); [done|].
    case_bool_decide as Hjava; cbn [andb].
    + destruct (Job.run_in_band _ _ _ _) as [[run|e] w2]; cbn [fst snd]; [|done].
      by destruct (Job.evaluate _ _ _) as [[r this3] run'].
    + destruct (Job.run_in_parallel _ _ _ _ _) as [[run|e] w2]; cbn [fst snd]; [|done].
      by destruct (Job.evaluate _ _ _) as [[r this3] run'].
  - case_bool_decide as Hjava; cbn [andb].
    + destruct (Job.run_in_band _ _ _ _) as [[run|e] w2]; cbn [fst snd]; [|done].
      by destruct (Job.evaluate _ _ _) as [[r this3] run'].
    + destruct (Job.run_in_parallel _ _ _ _ _) as [[run|e] w2]; cbn [fst snd]; [|done].
      by destruct (Job.evaluate _ _ _) as [[r this3] run'].
Qed.


(** *** The two dispatch loops *)

Lemma sequence_Return (cs : list (completion RunResult.t)) rs :
  sequence cs = Return rs → cs = map Return rs.
Proof.
  revert rs. induction cs as [|[r|e] cs IH]; intros rs Hseq; simpl in Hseq.
  - by simplify_eq.
  - destruct (sequence cs) as [rs'|]; [|done]. simplify_eq.
    simpl. f_equal. by apply IH.
  - done.
Qed.

Lemma sequence_map_Return (rs : list RunResult.t) :
  sequence (map Return rs) = Return rs.
Proof. induction rs as [|r rs IH]; [done|]. simpl. by rewrite IH. Qed.

Lemma sequence_all_Return (cs : list (completion RunResult.t)) :
  Forall (λ c, ∃ r, c = Return r) cs → ∃ rs, sequence cs = Return rs.
Proof.
  induction 1 as [|c cs [r ->] _ [rs IH]]; [by exists []|].
  exists (r :: rs). simpl. by rewrite IH.
Qed.

Lemma values_sequence (run : list Job.promise) :
  Job.values run = sequence (map snd run).
Proof.
  induction run as [|[n [r|e]] run IH]; simpl; [done| |done].
  by rewrite IH.
Qed.

Lemma run_outcomes_length this n stdin :
  length (run_outcomes config child this n stdin) = length stdin.
Proof. revert n. induction stdin as [|s stdin IH]; intros n; simpl; [done|]. by rewrite IH. Qed.

Lemma run_outcomes_lookup this stdin : ∀ n i s,
  stdin !! i = Some s →
  run_outcomes config child this n stdin !! i
  = Some (Job.settle config (child (n + i)%nat (run_request config this s)) s).
Proof.
  induction stdin as [|s0 stdin IH]; intros n i s Hi; [done|].
  destruct i as [|i]; simpl in *.
  - simplify_eq. by rewrite Nat.add_0_r.
  - rewrite (IH (S n) i s Hi). do 3 f_equal. lia.
Qed.

Lemma requests_app t t' : requests (t ++ t') = requests t ++ requests t'.
Proof. induction t as [|[n req|n] t IH]; simpl; [done| |done]. by rewrite IH. Qed.

Lemma requests_settled t :
  forallb (λ s, negb (is_spawn s)) t = true → requests t = [].
Proof. induction t as [|[n req|n] t IH]; simpl; [done|done|]. exact IH. Qed.

(** [run_in_band]: the first rejection in index order or the values in
    index order, over a serial trace of the run calls made. *)
Lemma run_in_band_loop_spec this : ∀ stdin run w,
  let out := Job.run_in_band_loop config child this stdin run w in
  out.1 = match sequence (run_outcomes config child this (Process.spawned w) stdin) with
          | Return rs => Return (run ++ rs)
          | Throw e => Throw e
          end
  ∧ ∃ t, Process.trace out.2 = Process.trace w ++ t
         ∧ serial t = true
         ∧ requests t `prefix_of` map (run_request config this) stdin
         ∧ (∀ L, out.1 = Return L → requests t = map (run_request config this) stdin).
Proof.
  induction stdin as [|s stdin IH]; intros run w.
  - simpl. rewrite app_nil_r. split; [done|]. exists []. by rewrite app_nil_r.
  - cbn [Job.run_in_band_loop run_outcomes sequence].
    unfold Job.run_call, Job.safe_call, Job.await.
    cbn [fst snd Process.trace Process.spawned].
    fold (run_request config this s).
    destruct (Job.settle config (child (Process.spawned w) (run_request config this s)) s)
      as [r|e].
    + specialize (IH (run ++ [r])
        (Process.mk_world
           ((Process.trace w ++ [Process.Spawned (Process.spawned w) (run_request config this s)])
            ++ [Process.Settled (Process.spawned w)])
           (S (Process.spawned w)))).
      cbn zeta in IH. destruct IH as (Hout & t & Htrace & Hserial & Hreq & Hfull).
      cbn [Process.spawned Process.trace] in *.
      split.
      * rewrite Hout. destruct (sequence _); [|done]. by rewrite <- app_assoc.
      * exists (Process.Spawned (Process.spawned w) (run_request config this s)
                :: Process.Settled (Process.spawned w) :: t).
        split; [rewrite Htrace, <- !app_assoc; done|].
        split; [cbn [serial]; by rewrite Nat.eqb_refl, Hserial|].
        cbn [requests map].
        split; [by apply prefix_cons|].
        intros L HL. f_equal. by apply (Hfull L).
    + cbn [fst snd Process.trace]. split; [done|].
      exists [Process.Spawned (Process.spawned w) (run_request config this s);
              Process.Settled (Process.spawned w)].
      split; [by rewrite <- app_assoc|].
      split; [cbn [serial]; by rewrite Nat.eqb_refl|].
      cbn [requests map]. split; [apply prefix_cons, prefix_nil|done].
Qed.

(** The loop of [run_in_parallel]: one promise per entry, in order, over
    a trace of spawns alone. *)
Lemma run_in_parallel_loop_spec this : ∀ stdin run w,
  let out := Job.run_in_parallel_loop config child this stdin run w in
  map snd out.1 = map snd run ++ run_outcomes config child this (Process.spawned w) stdin
  ∧ ∃ t, Process.trace out.2 = Process.trace w ++ t
         ∧ length t = length stdin
         ∧ forallb is_spawn t = true
         ∧ requests t = map (run_request config this) stdin.
Proof.
  induction stdin as [|s stdin IH]; intros run w.
  - simpl. rewrite app_nil_r. split; [done|]. exists []. by rewrite app_nil_r.
  - cbn [Job.run_in_parallel_loop run_outcomes].
    unfold Job.run_call, Job.safe_call. cbn [fst snd].
    fold (run_request config this s).
    specialize (IH (run ++ [(Process.spawned w,
                              Job.settle config (child (Process.spawned w)
                                                   (run_request config this s)) s)])
      (Process.mk_world
         (Process.trace w ++ [Process.Spawned (Process.spawned w) (run_request config this s)])
         (S (Process.spawned w)))).
    cbn zeta in IH. destruct IH as (Hout & t & Htrace & Hlen & Hspawn & Hreq).
    cbn [Process.spawned Process.trace] in *.
    split.
    + etrans; [exact Hout|]. by rewrite map_app, <- app_assoc.
    + exists (Process.Spawned (Process.spawned w) (run_request config this s) :: t).
      split; [etrans; [exact Htrace|]; by rewrite <- app_assoc|].
      split; [simpl; by rewrite Hlen|].
      split; [simpl; done|].
      cbn [requests map]. by rewrite Hreq.
Qed.

(** The settlements [Promise.all] goes through: no spawn among them, and
    no rejection found exactly when every promise resolves. *)
Lemma first_rejection_spec : ∀ (order : list Job.promise) w,
  let out := Job.first_rejection order w in
  (out.1 = None ↔ Forall (λ p : Job.promise, ∃ r, p.2 = Return r) order)
  ∧ ∃ t, Process.trace out.2 = Process.trace w ++ t
         ∧ forallb (λ s, negb (is_spawn s)) t = true.
Proof.
  induction order as [|[n c] order IH]; intros w.
  - simpl. split; [done|]. exists []. by rewrite app_nil_r.
  - cbn [Job.first_rejection]. unfold Job.await. cbn [fst snd].
    destruct c as [r|e].
    + specialize (IH (Process.mk_world (Process.trace w ++ [Process.Settled n])
                        (Process.spawned w))).
      cbn zeta in IH. destruct IH as (Hnone & t & Htrace & Hsettle).
      cbn [Process.trace] in Htrace.
      split.
      * rewrite Hnone. split.
        -- intros Hall. constructor; [by exists r|done].
        -- by inversion 1.
      * exists (Process.Settled n :: t). split; [by rewrite Htrace, <- app_assoc|].
        simpl. done.
    + cbn [fst snd Process.trace]. split.
      * split; [done|]. inversion 1 as [|? ? [r Hr]]. done.
      * by exists [Process.Settled n].
Qed.

Lemma Promise_all_spec (run : list Job.promise) w :
  let out := Job.Promise_all finish run w in
  (∀ L, out.1 = Return L ↔ sequence (map snd run) = Return L)
  ∧ ∃ t, Process.trace out.2 = Process.trace w ++ t
         ∧ forallb (λ s, negb (is_spawn s)) t = true.
Proof.
  unfold Job.Promise_all.
  destruct (first_rejection_spec (merge_sort (Job.settles_before finish) run) w)
    as (Hnone & t & Htrace & Hsettle).
  destruct (Job.first_rejection _ w) as [[e|] w1] eqn:Hfirst; cbn [fst snd] in *.
  - split; [|by exists t].
    intros L. split; [done|]. intros Hseq. exfalso.
    assert (Hall : Forall (λ p : Job.promise, ∃ r, p.2 = Return r) run).
    { apply sequence_Return in Hseq. apply Forall_forall. intros p Hp.
      assert (Hin : p.2 ∈ map Return L).
      { rewrite <- Hseq. apply list_elem_of_fmap. by exists p. }
      apply list_elem_of_fmap in Hin as (r & -> & _). by exists r. }
    rewrite <- (merge_sort_Permutation (Job.settles_before finish) run) in Hall.
    apply Hnone in Hall. done.
  - split; [|by exists t]. intros L. by rewrite values_sequence.
Qed.

Lemma run_in_band_spec this w :
  let out := Job.run_in_band config child this w in
  out.1 = sequence (run_outcomes config child this (Process.spawned w) (Job.stdin this))
  ∧ ∃ t, Process.trace out.2 = Process.trace w ++ t
         ∧ serial t = true
         ∧ requests t `prefix_of` map (run_request config this) (Job.stdin this)
         ∧ (∀ L, out.1 = Return L
                 → requests t = map (run_request config this) (Job.stdin this)).
Proof.
  destruct (run_in_band_loop_spec this (Job.stdin this) [] w) as (Hout & Ht).
  split; [|exact Ht]. unfold Job.run_in_band. rewrite Hout.
  by destruct (sequence _).
Qed.

Lemma run_in_parallel_spec this w :
  let out := Job.run_in_parallel config child finish this w in
  (∀ L, out.1 = Return L
        ↔ sequence (run_outcomes config child this (Process.spawned w) (Job.stdin this))
          = Return L)
  ∧ ∃ t, Process.trace out.2 = Process.trace w ++ t
         ∧ parallel (length (Job.stdin this)) t = true
         ∧ requests t = map (run_request config this) (Job.stdin this).
Proof.
  unfold Job.run_in_parallel.
  destruct (run_in_parallel_loop_spec this (Job.stdin this) [] w)
    as (Hrun & t & Htrace & Hlen & Hspawn & Hreq).
  destruct (Job.run_in_parallel_loop config child this (Job.stdin this) [] w)
    as [run w1] eqn:Hloop.
  cbn [fst snd] in *.
  destruct (Promise_all_spec run w1) as (Hall & t' & Htrace' & Hsettle).
  split.
  - intros L. by rewrite Hall, Hrun.
  - exists (t ++ t'). split; [by rewrite Htrace', Htrace, <- app_assoc|].
    split.
    + unfold parallel. rewrite length_app, <- Hlen.
      rewrite take_app_length, drop_app_length, Hspawn, Hsettle.
      rewrite !andb_true_r. apply Nat.leb_le. lia.
    + by rewrite requests_app, (requests_settled t'), app_nil_r.
Qed.


(** A serial trace and a parallel one differ as soon as two children are
    spawned. *)
Lemma serial_not_parallel n t :
  serial t = true → (2 <= n)%nat → parallel n t = false.
Proof.
  intros Hserial Hn. unfold parallel.
  destruct (Nat.leb_spec n (length t)) as [Hlen|Hlen]; [|done].
  destruct t as [|[k req|k] [|[k' req'|k'] t]]; simpl in *; try done; try lia.
  destruct n as [|[|n]]; [lia|lia|]. done.
Qed.

(** The values the dispatch returns are, entry by entry, what the run
    calls on the entries of [stdin] resolved with. *)
Lemma sequence_run_outcomes this n (stdin : list jsstring) L :
  sequence (run_outcomes config child this n stdin) = Return L →
  length L = length stdin
  ∧ ∀ i s, stdin !! i = Some s →
           ∃ r, L !! i = Some r
                ∧ Job.settle config (child (n + i)%nat (run_request config this s)) s
                  = Return r.
Proof.
  intros Hseq. apply sequence_Return in Hseq.
  split.
  - rewrite <- (run_outcomes_length this n), Hseq. by rewrite length_map.
  - intros i s Hi.
    pose proof (run_outcomes_lookup this stdin n i s Hi) as Hlook.
    rewrite Hseq, list_lookup_fmap in Hlook.
    destruct (L !! i) as [r|]; [|done]. exists r. split; [done|].
    simpl in Hlook. by simplify_eq.
Qed.

Lemma run_phase_this_stdin this : Job.stdin (run_phase_this this) = Job.stdin this.
Proof. unfold run_phase_this. by destruct (_ && _). Qed.

Lemma run_phase_this_state this : Job.state (run_phase_this this) = Job.state this.
Proof. unfold run_phase_this. by destruct (_ && _). Qed.

(** What [evaluate] returns: the [compile] it was given, a [run] as long
    as the one it was given, and a verdict of the shape
    [{ status, stdout, stdin, expected_output }] whose status is RUNTIME,
    TLE, WA or AC. *)
Lemma evaluate_loop_verdict this n : ∀ i (run run' : list RunResult.t) v,
  Job.evaluate_loop this n i run = (Return v, run') →
  ∃ status stdout stdin expected_output,
    v = Job.run_verdict status stdout stdin expected_output
    ∧ status ∈ [Verdict.RUNTIME; Verdict.TLE; Verdict.WA; Verdict.AC].
Proof.
  induction n as [|n IH]; intros i run run' v Hloop.
  { simpl in Hloop. simplify_eq. do 4 eexists. split; [done|]. repeat constructor. }
  cbn [Job.evaluate_loop] in Hloop.
  destruct (Job.evaluate_body this i run) as [run1 [c|]] eqn:Hbody; [|by eapply IH].
  simplify_eq. unfold Job.evaluate_body in Hbody.
  destruct (run !! i) as [r|]; [|by simplify_eq].
  destruct (truthy (RunResult.stderr r)).
  { simplify_eq. do 4 eexists. split; [done|]. repeat constructor. }
  destruct (is_SIGKILL (RunResult.signal r)).
  { simplify_eq. do 4 eexists. split; [done|]. repeat constructor. }
  destruct (Job.expected_output this) as [eo|]; [|done].
  destruct (index eo i); [by simplify_eq..|].
  case_bool_decide; [|done].
  simplify_eq. do 4 eexists. split; [done|]. repeat constructor.
Qed.

Lemma evaluate_result this run compile res :
  (Job.evaluate this run compile).1.1 = Return res →
  (Job.evaluate this run compile).1.2 = this
  ∧ Job.compile res = compile
  ∧ length (Job.run res) = length run
  ∧ ∃ status stdout stdin expected_output,
      Job.verdict res = Job.run_verdict status stdout stdin expected_output
      ∧ status ∈ [Verdict.RUNTIME; Verdict.TLE; Verdict.WA; Verdict.AC].
Proof.
  unfold Job.evaluate.
  destruct (Job.evaluate_loop this (length run) 0 run) as [[v|e] run'] eqn:Hloop;
    cbn [fst snd]; [|done].
  intros [= <-]. cbn [Job.compile Job.run Job.verdict].
  split; [done|]. split; [done|].
  split; [by apply evaluate_loop_frame in Hloop as [? _]|].
  by eapply evaluate_loop_verdict.
Qed.


(** [execute] once the compile phase has passed: the dispatch, then the
    transition to the executed state and [evaluate]. *)
Lemma execute_run_phase this w compile w1 :
  Job.state this = PRIMED →
  compile_passes config child this w compile w1 →
  Job.execute config child finish this w =
  match (dispatch config child finish this w1).1 with
  | Throw e => (Throw e, run_phase_this this, (dispatch config child finish this w1).2)
  | Return run =>
      ((Job.evaluate (Job.set_state (run_phase_this this) EXECUTED) run compile).1.1,
       (Job.evaluate (Job.set_state (run_phase_this this) EXECUTED) run compile).1.2,
       (dispatch config child finish this w1).2)
  end.
Proof.
  intros Hstate Hpass. rewrite execute_phases, Hstate.
  rewrite bool_decide_eq_false_2 by (by intros ?). cbn zeta.
  destruct Hpass as [(-> & -> & ->)|(-> & c & -> & Herr & Hsig & -> & ->)]; [done|].
  apply truthy_false in Herr as ->. by apply is_SIGKILL_false in Hsig as ->.
Qed.

(** The dispatch of the run phase: what it returns, and the trace it
    adds. *)
Lemma dispatch_spec this w :
  let d := dispatch config child finish this w in
  (∀ L, d.1 = Return L
        ↔ sequence (run_outcomes config child (run_phase_this this)
                      (Process.spawned w) (Job.stdin this)) = Return L)
  ∧ ∃ t, Process.trace d.2 = Process.trace w ++ t
         ∧ requests t `prefix_of` map (run_request config (run_phase_this this))
                                     (Job.stdin this)
         ∧ (∀ L, d.1 = Return L →
              requests t = map (run_request config (run_phase_this this)) (Job.stdin this))
         ∧ (Runtime.language (Job.runtime this) = js "java" → serial t = true)
         ∧ (Runtime.language (Job.runtime this) ≠ js "java" →
              parallel (length (Job.stdin this)) t = true).
Proof.
  unfold dispatch. rewrite <- (run_phase_this_stdin this).
  case_bool_decide as Hjava.
  - destruct (run_in_band_spec (run_phase_this this) w)
      as (Hout & t & Htrace & Hserial & Hreq & Hfull).
    split; [intros L; by rewrite Hout|].
    exists t. repeat split; done.
  - destruct (run_in_parallel_spec (run_phase_this this) w)
      as (Hout & t & Htrace & Hpar & Hreq).
    split; [done|].
    exists t. repeat split; try done. by rewrite Hreq.
Qed.

End ExecuteFacts.

(** *** The compilation short-circuit *)

(** The status of a verdict of [evaluate] is not COMPILATION. *)
Lemma run_verdict_not_compilation status stdout stdin expected_output :
  status ∈ [Verdict.RUNTIME; Verdict.TLE; Verdict.WA; Verdict.AC] →
  get (Job.run_verdict status stdout stdin expected_output) "status"
  ≠ Str Verdict.COMPILATION.
Proof.
  rewrite !elem_of_cons, elem_of_nil.
  intros [->|[->|[->|[->|[]]]]]; vm_compute; discriminate.
Qed.

(** C3.  On a primed job with a compiled runtime whose compile call
    resolved with [c]: if [c.stderr] is not empty or [c.signal] is
    SIGKILL, [execute] returns the COMPILATION verdict, carrying
    [c.stderr] (or the generic message when it is empty), with [run]
    empty, and the compile call is the only child spawned; otherwise what
    [execute] returns is no COMPILATION verdict, and one run call per
    [stdin] entry was spawned after the compile call. *)
Theorem execute_compilation_short_circuit
    (config : Config.t) (child : nat → Process.request → Process.behaviour)
    (finish : nat → nat) (this : Job.t) (w : Process.world) (c : RunResult.t) :
  Job.state this = PRIMED →
  Runtime.compiled (Job.runtime this) = true →
  compile_outcome config child this w = Return c →
  let out := Job.execute config child finish this w in
  ((RunResult.stderr c ≠ [] ∨ RunResult.signal c = Some SIGKILL) →
     out.1.1
     = Return (Job.mk_result (Some c) []
                 [("status", Str Verdict.COMPILATION);
                  ("output",
                   Str (if decide (RunResult.stderr c = [])
                        then js "Something went wrong during compilation"
                        else RunResult.stderr c));
                  ("stdin", Null); ("expectedOutput", Null)]%string)
     ∧ Process.trace out.2
       = Process.trace w
         ++ [Process.Spawned (Process.spawned w) (compile_request config this);
             Process.Settled (Process.spawned w)]
     ∧ requests (Process.trace out.2)
       = requests (Process.trace w) ++ [compile_request config this])
  ∧ (¬ (RunResult.stderr c ≠ [] ∨ RunResult.signal c = Some SIGKILL) →
     ∀ res, out.1.1 = Return res →
       get (Job.verdict res) "status" ≠ Str Verdict.COMPILATION
       ∧ length (Job.run res) = length (Job.stdin this)
       ∧ requests (Process.trace out.2)
         = requests (Process.trace w)
           ++ compile_request config this
              :: map (run_request config (run_phase_this this)) (Job.stdin this)).
Proof.
  intros Hstate Hcompiled Hc out. subst out.
  rewrite execute_phases, Hstate, Hcompiled, Hc.
  rewrite bool_decide_eq_false_2 by (by intros ?).
  cbn zeta. split.
  - intros Hfail.
    assert (truthy (RunResult.stderr c) || is_SIGKILL (RunResult.signal c) = true) as ->.
    { apply orb_true_iff. destruct Hfail as [H|H];
        [left; by apply truthy_true|right; by apply is_SIGKILL_true]. }
    cbn [fst snd compiled_world Process.trace].
    split; [|split; [done|]].
    + unfold Job.compilation_verdict, or_else.
      destruct (decide (RunResult.stderr c = [])) as [->|Hne]; [done|].
      by apply truthy_true in Hne as ->.
    + by rewrite requests_app.
  - intros Hpass res.
    assert (Herr : RunResult.stderr c = []).
    { destruct (decide (RunResult.stderr c = [])); [done|]. exfalso. apply Hpass. by left. }
    assert (Hsig : RunResult.signal c ≠ Some SIGKILL).
    { intros H. apply Hpass. by right. }
    apply truthy_false in Herr as ->. apply is_SIGKILL_false in Hsig as ->.
    cbn [orb].
    destruct (dispatch_spec config child finish this (compiled_world config this w))
      as (Hout & t & Htrace & _ & Hfull & _).
    destruct (dispatch config child finish this (compiled_world config this w))
      as [[L|e] w2]; cbn [fst snd] in *; [|done].
    intros Hres.
    apply evaluate_result in Hres as (_ & _ & Hlen & s & a & b & x & -> & Hs).
    pose proof (proj1 (Hout L) eq_refl) as Hseq.
    apply sequence_run_outcomes in Hseq as [HL _].
    split; [by apply run_verdict_not_compilation|].
    split; [congruence|].
    rewrite Htrace, requests_app, (Hfull L eq_refl). cbn [compiled_world Process.trace].
    by rewrite requests_app, <- app_assoc.
Qed.

(** The instance of C3 on a java job whose compile script writes
    "syntax error" to its stderr: COMPILATION with that output. *)
Lemma execute_compilation_short_circuit_witness :
  (Job.execute sample_config sample_child sample_finish
     (sample_job java (js "Main.java") [js "1"; js "2"] None PRIMED) empty_world).1.1
  = Return (Job.mk_result
              (Some (RunResult.mk [] (js "syntax error") (Some 1) None []))
              []
              [("status", Str Verdict.COMPILATION); ("output", Str (js "syntax error"));
               ("stdin", Null); ("expectedOutput", Null)]%string).
Proof.
  apply (execute_compilation_short_circuit sample_config sample_child sample_finish
           (sample_job java (js "Main.java") [js "1"; js "2"] None PRIMED) empty_world
           (RunResult.mk [] (js "syntax error") (Some 1) None []));
    [reflexivity|reflexivity|reflexivity|].
  left. discriminate.
Defined.

(** *** The state guards *)

Lemma write_files_set_state (FS : Type)
    (chown : list jsstring → Z → Z → FS → FS * option jsstring)
    (write_file : list jsstring → jsstring → FS → FS * option jsstring)
    (this : Job.t) (s : job_states) (files : list FileSpec.t) (fs : FS) :
  Job.write_files FS chown write_file (Job.set_state this s) files fs
  = Job.write_files FS chown write_file this files fs.
Proof.
  revert fs. induction files as [|file files IH]; intros fs; [done|].
  cbn [Job.write_files Job.set_state Job.dir Job.uid Job.gid].
  destruct (write_file _ _ fs) as [fs1 [e|]]; [done|].
  destruct (chown _ _ _ fs1) as [fs2 [e|]]; [done|]. apply IH.
Qed.

(** C4.  [execute] called in a state other than the primed one throws
    its error and leaves the job, its state included, and the world as
    they were.  [prime] has no such guard: it never reads the state.  In
    every state it completes the same way and leaves the same file system;
    it either rejects with the error of a file-system operation, leaving
    the job as it was, or resolves and leaves the job primed. *)
Theorem lifecycle_guards :
  (∀ config child finish (this : Job.t) (w : Process.world),
     Job.state this ≠ PRIMED →
     Job.execute config child finish this w
     = (Throw (Error (Job.must_be_primed (Job.state this))), this, w))
  ∧ (∀ (FS : Type) mkdir chown write_file (this : Job.t) (fs : FS),
       let out := Job.prime FS mkdir chown write_file this fs in
       ((out.1.1 = Return tt ∧ out.1.2 = Job.set_state this PRIMED)
        ∨ (∃ e, out.1.1 = Throw (FsError e) ∧ out.1.2 = this))
       ∧ ∀ s, let out' := Job.prime FS mkdir chown write_file (Job.set_state this s) fs in
              out'.1.1 = out.1.1 ∧ out'.2 = out.2).
Proof.
  split.
  - intros config child finish this w Hstate.
    rewrite execute_phases. by rewrite bool_decide_eq_true_2.
  - intros FS mkdir chown write_file this fs. cbn zeta. split.
    + unfold Job.prime.
      destruct (mkdir _ _ fs) as [fs1 [e|]]; [right; by exists e|].
      destruct (chown _ _ _ fs1) as [fs2 [e|]]; [right; by exists e|].
      destruct (Job.write_files _ _ _ _ _ fs2) as [fs3 [e|]]; [right; by exists e|].
      by left.
    + intros s. unfold Job.prime.
      cbn [Job.set_state Job.dir Job.uid Job.gid Job.files].
      destruct (mkdir _ _ fs) as [fs1 [e|]]; [done|].
      destruct (chown _ _ _ fs1) as [fs2 [e|]]; [done|].
      change (Job.write_files FS chown write_file
                (Job.mk (Job.uuid this) (Job.runtime this) (Job.files this)
                   (Job.args this) (Job.stdin this) (Job.expected_output this)
                   (Job.timeouts this) (Job.main this) (Job.alias this)
                   (Job.uid this) (Job.gid this) s (Job.dir this)))
        with (Job.write_files FS chown write_file (Job.set_state this s)).
      rewrite write_files_set_state.
      by destruct (Job.write_files _ _ _ _ _ fs2) as [fs3 [e|]].
Qed.

(** The instance of C4 on a job that is ready, not primed: [execute]
    throws, and the job is still ready. *)
Lemma lifecycle_guards_witness :
  Job.execute sample_config sample_child sample_finish
    (sample_job python (js "a.py") [js "x"] None READY) empty_world
  = (Throw (Error (js "Job must be in primed state, current state: Symbol(Ready to be primed)")),
     sample_job python (js "a.py") [js "x"] None READY, empty_world).
Proof.
  rewrite (proj1 lifecycle_guards sample_config sample_child sample_finish
             (sample_job python (js "a.py") [js "x"] None READY) empty_world).
  - reflexivity.
  - discriminate.
Defined.

(** [prime] called on a job that is executed, its directory removed,
    resolves and leaves the job primed; called on a primed job whose
    directory exists, it rejects with the error of [mkdir].  Neither is
    the error of a state guard. *)
Lemma prime_has_no_state_guard :
  (Job.prime MemFs.t MemFs.mkdir MemFs.chown MemFs.write_file
     (sample_job python (js "a.py") [js "x"] None EXECUTED) []).1
  = (Return tt, sample_job python (js "a.py") [js "x"] None PRIMED)
  ∧ (Job.prime MemFs.t MemFs.mkdir MemFs.chown MemFs.write_file
       (sample_job python (js "a.py") [js "x"] None PRIMED)
       [[js "/piston"; js "jobs"; js "uuid-1"]]).1
    = (Throw (FsError (js "EEXIST")), sample_job python (js "a.py") [js "x"] None PRIMED).
Proof. split; reflexivity. Qed.

(** *** The state after [execute] and the shape of the verdicts *)

(** C9.  On a primed job: when [execute] short-circuits on the compile
    result, the job stays primed and the verdict has the keys [status],
    [output], [stdin] and [expectedOutput], the diagnostic under [output]
    and null under the last two; when the compile phase passes and
    [execute] returns, the job is executed and the verdict has the keys
    [status], [stdout], [stdin] and [expected_output]; and the job is
    executed afterwards only if the compile phase passed and the dispatch
    of the run phase returned. *)
Theorem short_circuit_keeps_primed
    (config : Config.t) (child : nat → Process.request → Process.behaviour)
    (finish : nat → nat) (this : Job.t) (w : Process.world) :
  Job.state this = PRIMED →
  let out := Job.execute config child finish this w in
  (∀ c, Runtime.compiled (Job.runtime this) = true →
        compile_outcome config child this w = Return c →
        RunResult.stderr c ≠ [] ∨ RunResult.signal c = Some SIGKILL →
        Job.state out.1.2 = PRIMED
        ∧ ∃ res, out.1.1 = Return res
            ∧ keys (Job.verdict res) = ["status"; "output"; "stdin"; "expectedOutput"]%string
            ∧ get (Job.verdict res) "status" = Str Verdict.COMPILATION
            ∧ get (Job.verdict res) "output"
              = Str (or_else (RunResult.stderr c)
                       (js "Something went wrong during compilation"))
            ∧ get (Job.verdict res) "stdin" = Null
            ∧ get (Job.verdict res) "expectedOutput" = Null)
  ∧ (∀ compile w1 res,
       compile_passes config child this w compile w1 →
       out.1.1 = Return res →
       Job.state out.1.2 = EXECUTED
       ∧ keys (Job.verdict res) = ["status"; "stdout"; "stdin"; "expected_output"]%string)
  ∧ (Job.state out.1.2 = EXECUTED →
     ∃ compile w1 run,
       compile_passes config child this w compile w1
       ∧ (dispatch config child finish this w1).1 = Return run).
Proof.
  intros Hstate out. subst out. split; [|split].
  - intros c Hcompiled Hc Hfail.
    rewrite execute_phases, Hstate, Hcompiled, Hc.
    rewrite bool_decide_eq_false_2 by (by intros ?). cbn zeta.
    assert (truthy (RunResult.stderr c) || is_SIGKILL (RunResult.signal c) = true) as ->.
    { apply orb_true_iff. destruct Hfail as [H|H];
        [left; by apply truthy_true|right; by apply is_SIGKILL_true]. }
    cbn [fst snd]. split; [done|]. eexists. split; [done|]. done.
  - intros compile w1 res Hpass.
    rewrite (execute_run_phase config child finish this w compile w1 Hstate Hpass).
    destruct (dispatch config child finish this w1) as [[run|e] w2]; cbn [fst snd]; [|done].
    intros Hres.
    apply evaluate_result in Hres as (-> & _ & _ & s & a & b & x & -> & _).
    done.
  - rewrite execute_phases, Hstate.
    rewrite bool_decide_eq_false_2 by (by intros ?). cbn zeta.
    assert (Hready : Job.state (run_phase_this this) ≠ EXECUTED)
      by (rewrite run_phase_this_state, Hstate; discriminate).
    assert (Hthis : Job.state this ≠ EXECUTED) by (rewrite Hstate; discriminate).
    destruct (Runtime.compiled (Job.runtime this)) eqn:Hcompiled.
    + destruct (compile_outcome config child this w) as [c|e] eqn:Hc; [|done].
      destruct (truthy (RunResult.stderr c)) eqn:Herr; [done|].
      destruct (is_SIGKILL (RunResult.signal c)) eqn:Hsig; [done|].
      cbn [orb].
      destruct (dispatch config child finish this (compiled_world config this w))
        as [[run|e] w2] eqn:Hd; cbn [fst snd]; [|done].
      intros _. exists (Some c), (compiled_world config this w), run.
      rewrite Hd. split; [|done]. right. split; [done|]. exists c.
      split; [done|]. split; [by apply truthy_false|].
      split; [by apply is_SIGKILL_false|]. done.
    + destruct (dispatch config child finish this w) as [[run|e] w2] eqn:Hd;
        cbn [fst snd]; [|done].
      intros _. exists None, w, run. rewrite Hd. split; [|done]. by left.
Qed.

(** The instance of C9 on a java job whose compile script writes
    "syntax error" to its stderr: the job is still primed. *)
Lemma short_circuit_keeps_primed_witness :
  Job.state
    (Job.execute sample_config sample_child sample_finish
       (sample_job java (js "Main.java") [js "1"; js "2"] None PRIMED) empty_world).1.2
  = PRIMED.
Proof.
  apply (proj1 (short_circuit_keeps_primed sample_config sample_child sample_finish
                  (sample_job java (js "Main.java") [js "1"; js "2"] None PRIMED)
                  empty_world eq_refl)
           (RunResult.mk [] (js "syntax error") (Some 1) None []));
    [reflexivity|reflexivity|].
  left. discriminate.
Defined.

(** *** The java rule and the dispatch policy *)

(** C6.  The run phase of [execute] works on a job whose [main] has lost
    its last five units if and only if the language is "java" and the
    runtime is compiled; every run call is made with that [main].  The
    trace of the dispatch is serial when the language is "java" and
    parallel otherwise, and the two differ as soon as [stdin] has two
    entries.  [run_in_band] and [run_in_parallel] return the same lists:
    one result per [stdin] entry, in index order, each what the call on
    that entry resolved with. *)
Theorem execute_java_rule
    (config : Config.t) (child : nat → Process.request → Process.behaviour)
    (finish : nat → nat) (this : Job.t) (w : Process.world) :
  let this' := run_phase_this this in
  let n := length (Job.stdin this) in
  (Job.main this'
   = if bool_decide (Runtime.language (Job.runtime this) = js "java")
        && Runtime.compiled (Job.runtime this)
     then slice_0_neg 5 (Job.main this)
     else Job.main this)
  ∧ (Job.state this = PRIMED →
     ∀ compile w1,
       compile_passes config child this w compile w1 →
       let out := Job.execute config child finish this w in
       let d := dispatch config child finish this w1 in
       out.2 = d.2
       ∧ Job.main out.1.2 = Job.main this'
       ∧ out.1.1 = match d.1 with
                   | Return run =>
                       (Job.evaluate (Job.set_state this' EXECUTED) run compile).1.1
                   | Throw e => Throw e
                   end)
  ∧ (∀ w1, ∃ t,
       Process.trace (dispatch config child finish this w1).2 = Process.trace w1 ++ t
       ∧ requests t `prefix_of` map (run_request config this') (Job.stdin this)
       ∧ (Runtime.language (Job.runtime this) = js "java" →
            serial t = true ∧ ((2 <= n)%nat → parallel n t = false))
       ∧ (Runtime.language (Job.runtime this) ≠ js "java" →
            parallel n t = true ∧ ((2 <= n)%nat → serial t = false)))
  ∧ (∀ w1 L,
       (Job.run_in_band config child this' w1).1 = Return L
       ↔ (Job.run_in_parallel config child finish this' w1).1 = Return L)
  ∧ (∀ w1 L,
       (dispatch config child finish this w1).1 = Return L →
       length L = n
       ∧ ∀ i s, Job.stdin this !! i = Some s →
           ∃ r, L !! i = Some r
                ∧ Job.settle config
                    (child (Process.spawned w1 + i)%nat (run_request config this' s)) s
                  = Return r).
Proof.
  intros this' n. split; [|split; [|split; [|split]]].
  - subst this'. unfold run_phase_this. by destruct (_ && _).
  - intros Hstate compile w1 Hpass out d. subst out d.
    rewrite (execute_run_phase config child finish this w compile w1 Hstate Hpass).
    destruct (dispatch config child finish this w1) as [[run|e] w2]; cbn [fst snd]; [|done].
    by rewrite evaluate_this.
  - intros w1.
    destruct (dispatch_spec config child finish this w1)
      as (_ & t & Htrace & Hreq & _ & Hjava & Hother).
    exists t. split; [done|]. split; [done|]. split.
    + intros Hlang. split; [by apply Hjava|].
      intros Hn. apply serial_not_parallel; [by apply Hjava|done].
    + intros Hlang. split; [by apply Hother|].
      intros Hn. destruct (serial t) eqn:Hserial; [|done].
      specialize (Hother Hlang).
      pose proof (serial_not_parallel n t Hserial Hn) as Hnot.
      subst n. congruence.
  - intros w1 L.
    rewrite (proj1 (run_in_band_spec config child this' w1)).
    by rewrite (proj1 (run_in_parallel_spec config child finish this' w1) L).
  - intros w1 L HL.
    apply (proj1 (dispatch_spec config child finish this w1)) in HL.
    by apply sequence_run_outcomes in HL.
Qed.

(** The instance of C6 on a compiled java job whose [main] is
    "Main.java" and whose compile script is silent: after [execute] the
    job's [main] is "Main". *)
Lemma execute_java_rule_witness :
  Job.main
    (Job.execute sample_config quiet_child sample_finish
       (sample_job java (js "Main.java") [js "1"; js "2"] None PRIMED) empty_world).1.2
  = js "Main".
Proof.
  destruct (execute_java_rule sample_config quiet_child sample_finish
              (sample_job java (js "Main.java") [js "1"; js "2"] None PRIMED) empty_world)
    as (Hmain & Hexec & _).
  destruct (Hexec eq_refl
              (Some (RunResult.mk [] [] (Some 0) None []))
              (compiled_world sample_config
                 (sample_job java (js "Main.java") [js "1"; js "2"] None PRIMED)
                 empty_world)) as (_ & Hout & _).
  - right. split; [reflexivity|]. eexists. split; [reflexivity|].
    split; [reflexivity|]. split; [discriminate|]. split; reflexivity.
  - rewrite Hout, Hmain. reflexivity.
Defined.

(* ================================================================== *)
(** ** Further properties: trimming and the adjudicator *)
(* ================================================================== *)

Lemma skip_leading_split (s : jsstring) :
  ∃ pre, s = pre ++ skip_leading s ∧ forallb is_space pre = true.
Proof.
  induction s as [|c s (pre & Hs & Hpre)]; [by exists []|].
  cbn [skip_leading]. destruct (is_space c) eqn:Hc; [|by exists []].
  exists (c :: pre). split; [simpl; by f_equal|]. simpl. by rewrite Hc.
Qed.

Lemma strip_trailing_split (s : jsstring) :
  ∃ post, s = strip_trailing s ++ post ∧ forallb is_space post = true.
Proof.
  induction s as [|c s (post & Hs & Hpost)]; [by exists []|].
  cbn [strip_trailing].
  destruct (forallb is_space (c :: s)) eqn:Hall; [by exists (c :: s)|].
  exists post. split; [simpl; by f_equal|done].
Qed.

Lemma strip_trailing_last (s : jsstring) :
  match last (strip_trailing s) with
  | Some c => is_space c = false
  | None => True
  end.
Proof.
  induction s as [|c s IH]; [done|].
  cbn [strip_trailing].
  destruct (forallb is_space (c :: s)) eqn:Hall; [done|].
  destruct (strip_trailing s) as [|c' s'] eqn:Hstrip; [|exact IH].
  simpl. cbn [forallb] in Hall.
  rewrite <- strip_trailing_all_space, Hstrip, andb_true_r in Hall. exact Hall.
Qed.

(** X1.  [replace(/^\s+|\s+$/g, "")] removes a run of white space from
    each end and nothing else: the string is the result between two runs
    of white space, and the result neither starts nor ends with white
    space.  Replacing again changes nothing. *)
Theorem replace_edges_trims (s : jsstring) :
  (∃ pre post,
     s = pre ++ replace_edges s ++ post
     ∧ forallb is_space pre = true
     ∧ forallb is_space post = true)
  ∧ match head (replace_edges s) with
    | Some c => is_space c = false
    | None => True
    end
  ∧ match last (replace_edges s) with
    | Some c => is_space c = false
    | None => True
    end
  ∧ replace_edges (replace_edges s) = replace_edges s.
Proof.
  split; [|split; [|split]].
  - destruct (skip_leading_split s) as (pre & Hs & Hpre).
    destruct (strip_trailing_split (skip_leading s)) as (post & Ht & Hpost).
    exists pre, post. unfold replace_edges. by rewrite <- Ht.
  - unfold replace_edges.
    pose proof (strip_trailing_head (skip_leading s) (skip_leading_head s)) as H.
    by destruct (strip_trailing (skip_leading s)).
  - apply strip_trailing_last.
  - apply replace_edges_idemp.
Qed.

(** The loop of [evaluate] without expected outputs. *)
Lemma evaluate_loop_no_expected this n : ∀ i (run : list RunResult.t),
  Job.expected_output this = None →
  (i + n = length run)%nat →
  ∃ status stdout stdin,
    Job.evaluate_loop this n i run
    = (Return (Job.run_verdict status stdout stdin Null), run)
    ∧ status ∈ [Verdict.RUNTIME; Verdict.TLE; Verdict.AC].
Proof.
  induction n as [|n IH]; intros i run Hexp Hlen.
  { do 3 eexists. split; [reflexivity|]. repeat constructor. }
  destruct (lookup_lt_is_Some_2 run i) as [r Hr]; [lia|].
  cbn [Job.evaluate_loop]. unfold Job.evaluate_body. rewrite Hr, Hexp.
  destruct (truthy (RunResult.stderr r)).
  { do 3 eexists. split; [reflexivity|]. repeat constructor. }
  destruct (is_SIGKILL (RunResult.signal r)).
  { do 3 eexists. split; [reflexivity|]. repeat constructor. }
  apply IH; [done|lia].
Qed.

(** X2.  Without expected outputs [evaluate] never throws and never
    answers WA: it returns a RUNTIME, TLE or AC verdict whose
    [expected_output] is null, and it leaves [run] untouched. *)
Theorem evaluate_without_expected_output
    (this : Job.t) (run : list RunResult.t) (compile : option RunResult.t) :
  Job.expected_output this = None →
  ∃ status stdout stdin,
    Job.evaluate this run compile
    = (Return (Job.mk_result compile run
                 (Job.run_verdict status stdout stdin Null)), this, run)
    ∧ status ∈ [Verdict.RUNTIME; Verdict.TLE; Verdict.AC].
Proof.
  intros Hexp.
  destruct (evaluate_loop_no_expected this (length run) 0 run Hexp eq_refl)
    as (status & stdout & stdin & Hloop & Hstatus).
  exists status, stdout, stdin. unfold Job.evaluate. by rewrite Hloop.
Qed.

(** The instance of X2 on one killed test case: TLE. *)
Lemma evaluate_without_expected_output_witness :
  ∃ status stdout stdin,
    Job.evaluate (sample_job python (js "a.py") [js "1"] None EXECUTED)
      [RunResult.mk (js "par") [] None (Some SIGKILL) (js "1")] None
    = (Return (Job.mk_result None
                 [RunResult.mk (js "par") [] None (Some SIGKILL) (js "1")]
                 (Job.run_verdict status stdout stdin Null)),
       sample_job python (js "a.py") [js "1"] None EXECUTED,
       [RunResult.mk (js "par") [] None (Some SIGKILL) (js "1")])
    ∧ status ∈ [Verdict.RUNTIME; Verdict.TLE; Verdict.AC].
Proof.
  apply (evaluate_without_expected_output
           (sample_job python (js "a.py") [js "1"] None EXECUTED)
           [RunResult.mk (js "par") [] None (Some SIGKILL) (js "1")] None).
  reflexivity.
Defined.

(** The loop of [evaluate] when the expected outputs run out at index
    [length eo], every test case before it being accepting. *)
Lemma evaluate_loop_missing_expected this eo r n : ∀ i (run : list RunResult.t),
  Job.expected_output this = Some eo →
  (i + n = length run)%nat →
  (i <= length eo)%nat →
  (∀ j rj, (i <= j)%nat → (j < length eo)%nat → run !! j = Some rj → accepting this j rj) →
  run !! length eo = Some r →
  RunResult.stderr r = [] →
  RunResult.signal r ≠ Some SIGKILL →
  ∃ run', Job.evaluate_loop this n i run = (Throw TypeError, run')
          ∧ run' !! length eo = Some (trimmed r).
Proof.
  induction n as [|n IH]; intros i run Hexp Hlen Hi Hacc Hr Herr Hsig.
  { apply lookup_lt_Some in Hr. lia. }
  destruct (lookup_lt_is_Some_2 run i) as [ri Hri]; [lia|].
  cbn [Job.evaluate_loop]. unfold Job.evaluate_body. rewrite Hri, Hexp.
  destruct (decide (i = length eo)) as [->|Hne].
  - simplify_eq. apply truthy_false in Herr as ->.
    apply is_SIGKILL_false in Hsig as ->.
    unfold index. rewrite (lookup_ge_None_2 eo (length eo)) by lia.
    eexists. split; [reflexivity|].
    apply list_lookup_insert_eq. by eapply lookup_lt_Some.
  - destruct (Hacc i ri) as (Herri & Hsigi & Heoi); [lia|lia|done|].
    specialize (Heoi eo Hexp).
    apply truthy_false in Herri as ->. apply is_SIGKILL_false in Hsigi as ->.
    unfold index. rewrite Heoi.
    rewrite bool_decide_eq_false_2 by (by intros H; apply H).
    apply IH; try done.
    + rewrite length_insert. lia.
    + lia.
    + intros j rj Hij Hj Hrj. rewrite list_lookup_insert_ne in Hrj by lia.
      apply Hacc; [lia|done|done].
    + rewrite list_lookup_insert_ne by lia. done.
Qed.

(** X3.  When there are fewer expected outputs than results, and every
    test case that has an expected output is accepting, [evaluate] throws
    a [TypeError] at the first test case without one, unless that case
    fails by its [stderr] or signal; the [stdout] of that case has
    already been trimmed in [run] when it throws. *)
Theorem evaluate_missing_expected_output
    (this : Job.t) (run : list RunResult.t) (compile : option RunResult.t)
    (eo : list jsstring) (r : RunResult.t) :
  Job.expected_output this = Some eo →
  (∀ j rj, (j < length eo)%nat → run !! j = Some rj → accepting this j rj) →
  run !! length eo = Some r →
  RunResult.stderr r = [] →
  RunResult.signal r ≠ Some SIGKILL →
  ∃ run', Job.evaluate this run compile = (Throw TypeError, this, run')
          ∧ run' !! length eo = Some (trimmed r).
Proof.
  intros Hexp Hacc Hr Herr Hsig.
  destruct (evaluate_loop_missing_expected this eo r (length run) 0 run)
    as (run' & Hloop & Hrun'); try done; [lia|intros; by apply Hacc|].
  exists run'. unfold Job.evaluate. by rewrite Hloop.
Qed.

(** The instance of X3 on two results and one expected output. *)
Lemma evaluate_missing_expected_output_witness :
  ∃ run',
    Job.evaluate (sample_job python (js "a.py") [js "1"; js "2"] (Some [js "one"]) EXECUTED)
      [exited (js "one") [] (js "1"); exited (js " two") [] (js "2")] None
    = (Throw TypeError,
       sample_job python (js "a.py") [js "1"; js "2"] (Some [js "one"]) EXECUTED, run')
    ∧ run' !! 1%nat = Some (exited (js "two") [] (js "2")).
Proof.
  apply (evaluate_missing_expected_output
           (sample_job python (js "a.py") [js "1"; js "2"] (Some [js "one"]) EXECUTED)
           [exited (js "one") [] (js "1"); exited (js " two") [] (js "2")] None
           [js "one"] (exited (js " two") [] (js "2"))).
  - reflexivity.
  - intros [|j] rj Hj Hrj; [|simpl in Hj; lia].
    injection Hrj as <-. split; [reflexivity|]. split; [discriminate|].
    by intros eo' [= <-].
  - reflexivity.
  - reflexivity.
  - discriminate.
Defined.

(** X17.  On a [run] array with one result per [stdin] entry (and one
    expected output per entry when expected outputs are given),
    [evaluate] returns [{ compile, run, verdict }] where the verdict is
    that of the first test case, in ascending index order, that fails one
    of the three tests [evaluate] makes -- RUNTIME with its [stderr] if
    that is not empty, else TLE with its [stdout] if its signal is
    SIGKILL, else WA with the two trimmed strings if the trimmed [stdout]
    differs from [expected_output[i]] as given -- and the verdict is AC
    exactly when every test case passes the three; the AC verdict
    carries the first case's [stdout] (as [evaluate] leaves it: trimmed
    when expected outputs are given) and [stdin], or nulls when [run] is
    empty, and [expected_output: null]. *)
Theorem evaluate_first_failure
    (this : Job.t) (run : list RunResult.t) (compile : option RunResult.t) :
  length (Job.stdin this) = length run →
  (∀ eo, Job.expected_output this = Some eo → length eo = length run) →
  ∃ v run',
    Job.evaluate this run compile = (Return (Job.mk_result compile run' v), this, run')
    ∧ ((∃ i r, run !! i = Some r
          ∧ (∀ j rj, (j < i)%nat → run !! j = Some rj → accepting this j rj)
          ∧ failure_at this i r v)
       ∨ ((∀ j rj, run !! j = Some rj → accepting this j rj)
          ∧ v = match run, Job.stdin this with
                | r0 :: _, s0 :: _ =>
                    [("status", Str Verdict.AC);
                     ("stdout", Str (if Job.expected_output this is Some _
                                     then replace_edges (RunResult.stdout r0)
                                     else RunResult.stdout r0));
                     ("stdin", Str s0);
                     ("expected_output", Null)]%string
                | _, _ =>
                    [("status", Str Verdict.AC); ("stdout", Null);
                     ("stdin", Null); ("expected_output", Null)]%string
                end))
    ∧ (get v "status" = Str Verdict.AC
       ↔ ∀ j rj, run !! j = Some rj → accepting this j rj).
Proof.
  intros Hstdin Heo.
  destruct (evaluate_loop_spec this (length run) 0 run eq_refl Heo)
    as (v & run' & Hloop & _ & _ & Hcase).
  exists v, run'. unfold Job.evaluate. rewrite Hloop.
  split; [done|].
  destruct Hcase as [(k & r & _ & Hr & Hbefore & Hfail)|(Hall & Hfin & Hv)].
  - split.
    + left. exists k, r. split; [done|]. split; [|done].
      intros j rj Hj Hrj. apply Hbefore; [lia|done|done].
    + split.
      * intros Hac. by apply failure_status in Hfail.
      * intros Hall. apply failure_not_accepting in Hfail.
        exfalso. by apply Hfail, Hall.
  - assert (Hv' : v = match run, Job.stdin this with
                | r0 :: _, s0 :: _ =>
                    [("status", Str Verdict.AC);
                     ("stdout", Str (if Job.expected_output this is Some _
                                     then replace_edges (RunResult.stdout r0)
                                     else RunResult.stdout r0));
                     ("stdin", Str s0);
                     ("expected_output", Null)]%string
                | _, _ =>
                    [("status", Str Verdict.AC); ("stdout", Null);
                     ("stdin", Null); ("expected_output", Null)]%string
                end).
    { rewrite Hv. destruct run as [|r0 run].
      - destruct (Job.stdin this); [|done].
        simpl in Hloop. by simplify_eq.
      - destruct (Job.stdin this) as [|s0 ss]; [done|].
        rewrite (Hfin 0%nat r0) by (done || lia). simpl.
        by destruct (Job.expected_output this). }
    split.
    + right. split; [|done]. intros j rj Hj. apply Hall; [lia|done].
    + split.
      * intros _ j rj Hj. apply Hall; [lia|done].
      * intros _. rewrite Hv'. by destruct run, (Job.stdin this).
Qed.

(** The instance of X17 on two test cases with expected outputs "one" and
    "two": the first prints " one" and a line feed and passes, the second
    prints "tow": WA at index 1. *)
Lemma evaluate_first_failure_witness :
  ∃ v run',
    Job.evaluate
      (sample_job python (js "a.py") [js "1"; js "2"] (Some [js "one"; js "two"]) EXECUTED)
      [exited (js " one" ++ LF) [] (js "1"); exited (js "tow") [] (js "2")] None
    = (Return (Job.mk_result None run' v),
       sample_job python (js "a.py") [js "1"; js "2"] (Some [js "one"; js "two"]) EXECUTED,
       run')
    ∧ v = [("status", Str Verdict.WA); ("stdout", Str (js "tow"));
           ("stdin", Str (js "2")); ("expected_output", Str (js "two"))]%string.
Proof.
  destruct (evaluate_first_failure
              (sample_job python (js "a.py") [js "1"; js "2"]
                 (Some [js "one"; js "two"]) EXECUTED)
              [exited (js " one" ++ LF) [] (js "1"); exited (js "tow") [] (js "2")] None)
    as (v & run' & Heval & _); [reflexivity|by intros eo [= <-]|].
  exists v, run'. split; [exact Heval|].
  vm_compute in Heval. injection Heval as <- <-. reflexivity.
Defined.

(* ================================================================== *)
(** ** Further properties: identities and captured output *)
(* ================================================================== *)

(** X4.  With [uid_max >= uid_min] and [gid_max >= gid_min], every
    identity handed out lies in the configured ranges: after any number
    of allocations, a job the constructor accepts gets a [uid] in
    [uid_min..uid_max] and a [gid] in [gid_min..gid_max], and the
    counters move on by one allocation. *)
Theorem constructor_ids_in_range
    (config : Config.t) (jobs uuid : jsstring) (spec : JobSpec.t) (n : nat)
    (job : Job.t) (pool' : Pool.t) :
  Config.runner_uid_min config <= Config.runner_uid_max config →
  Config.runner_gid_min config <= Config.runner_gid_max config →
  Job.constructor config jobs uuid spec (allocate config n Pool.initial)
  = (Return job, pool') →
  Config.runner_uid_min config <= Job.uid job <= Config.runner_uid_max config
  ∧ Config.runner_gid_min config <= Job.gid job <= Config.runner_gid_max config
  ∧ Job.state job = READY
  ∧ pool' = allocate config (S n) Pool.initial.
Proof.
  intros Hu Hg Hnew.
  assert (Hu' : 0 < uid_range config) by (unfold uid_range; lia).
  assert (Hg' : 0 < gid_range config) by (unfold gid_range; lia).
  destruct (allocate_counters config n Hu' Hg') as [Hcu Hcg].
  pose proof (Z.mod_pos_bound (Z.of_nat n) (uid_range config) Hu') as Hbu.
  pose proof (Z.mod_pos_bound (Z.of_nat n) (gid_range config) Hg') as Hbg.
  unfold Job.constructor in Hnew.
  destruct (negb _); [done|].
  rewrite allocate_S.
  destruct (Job.shuffle_ids config (allocate config n Pool.initial))
    as [[this_uid this_gid] p] eqn:Hids.
  injection Hnew as <- <-. cbn [Job.uid Job.gid Job.state snd].
  unfold Job.shuffle_ids in Hids. injection Hids as <- <- _.
  rewrite Hcu, Hcg. unfold uid_range, gid_range in *. repeat split; lia.
Qed.

(** The instance of X4: the fifth job constructed on the ranges
    1001..1003 and 2001..2002. *)
Lemma constructor_ids_in_range_witness :
  ∃ job pool',
    Job.constructor sample_config (js "jobs") (js "uuid-5")
      (JobSpec.mk python [FileSpec.mk (js "a.py") (js "source")] [] [] None
         (Timeouts.mk 10000 3000) (js "a.py") (js "alias"))
      (allocate sample_config 4 Pool.initial)
    = (Return job, pool')
    ∧ 1001 <= Job.uid job <= 1003 ∧ 2001 <= Job.gid job <= 2002.
Proof.
  eexists _, _. split; [reflexivity|].
  destruct (constructor_ids_in_range sample_config (js "jobs") (js "uuid-5")
              (JobSpec.mk python [FileSpec.mk (js "a.py") (js "source")] [] [] None
                 (Timeouts.mk 10000 3000) (js "a.py") (js "alias"))
              4 _ _ ltac:(vm_compute; discriminate) ltac:(vm_compute; discriminate)
              eq_refl) as (Hu & Hg & _).
  split; [exact Hu|exact Hg].
Defined.

Section Capture.

Variable config : Config.t.

(** What the handlers leave in the [stdout] buffer depends on the buffer
    and on the chunks of stdout alone. *)
Lemma stdout_only_chunks evs : ∀ c c',
  Process.stdout c = Process.stdout c' →
  Process.stdout (fold_left (Job.on_event config) evs c)
  = Process.stdout (fold_left (Job.on_event config)
                      (map Process.StdoutData (stdout_chunks evs)) c').
Proof.
  induction evs as [|e evs IH]; intros c c' Hc; [done|].
  destruct e as [data|data|]; cbn [fold_left stdout_chunks map].
  - apply IH. cbn [Job.on_event]. unfold Job.on_stdout_data. rewrite Hc.
    by destruct (_ >? _).
  - apply IH. cbn [Job.on_event]. unfold Job.on_stderr_data.
    by destruct (_ >? _).
  - by apply IH.
Qed.

Lemma stderr_only_chunks evs : ∀ c c',
  Process.stderr c = Process.stderr c' →
  Process.stderr (fold_left (Job.on_event config) evs c)
  = Process.stderr (fold_left (Job.on_event config)
                      (map Process.StderrData (stderr_chunks evs)) c').
Proof.
  induction evs as [|e evs IH]; intros c c' Hc; [done|].
  destruct e as [data|data|]; cbn [fold_left stderr_chunks map].
  - apply IH. cbn [Job.on_event]. unfold Job.on_stdout_data.
    by destruct (_ >? _).
  - apply IH. cbn [Job.on_event]. unfold Job.on_stderr_data. rewrite Hc.
    by destruct (_ >? _).
  - by apply IH.
Qed.

(** A buffer grows by whole chunks, in order, until it stops growing. *)
Lemma stdout_whole_chunks chunks : ∀ c,
  ∃ k, Process.stdout (fold_left (Job.on_event config)
                         (map Process.StdoutData chunks) c)
       = Process.stdout c ++ concat (take k chunks).
Proof.
  induction chunks as [|d chunks IH]; intros c.
  { exists 0%nat. simpl. by rewrite app_nil_r. }
  cbn [map fold_left Job.on_event].
  destruct (Z.gtb_spec (Z.of_nat (length (Process.stdout c)))
              (Config.output_max_size config)) as [Hgt|Hle].
  - exists 0%nat. rewrite stdout_frozen.
    + unfold Job.on_stdout_data.
      destruct (Z.gtb_spec (Z.of_nat (length (Process.stdout c)))
                  (Config.output_max_size config)); [|lia].
      simpl. by rewrite app_nil_r.
    + unfold Job.on_stdout_data.
      destruct (Z.gtb_spec (Z.of_nat (length (Process.stdout c)))
                  (Config.output_max_size config)); [done|lia].
  - destruct (IH (Job.on_stdout_data config c d)) as [k Hk].
    exists (S k). rewrite Hk. unfold Job.on_stdout_data.
    destruct (Z.gtb_spec (Z.of_nat (length (Process.stdout c)))
                (Config.output_max_size config)); [lia|].
    simpl. by rewrite <- app_assoc.
Qed.

Lemma stderr_whole_chunks chunks : ∀ c,
  ∃ k, Process.stderr (fold_left (Job.on_event config)
                         (map Process.StderrData chunks) c)
       = Process.stderr c ++ concat (take k chunks).
Proof.
  induction chunks as [|d chunks IH]; intros c.
  { exists 0%nat. simpl. by rewrite app_nil_r. }
  cbn [map fold_left Job.on_event].
  destruct (Z.gtb_spec (Z.of_nat (length (Process.stderr c)))
              (Config.output_max_size config)) as [Hgt|Hle].
  - exists 0%nat. rewrite stderr_frozen.
    + unfold Job.on_stderr_data.
      destruct (Z.gtb_spec (Z.of_nat (length (Process.stderr c)))
                  (Config.output_max_size config)); [|lia].
      simpl. by rewrite app_nil_r.
    + unfold Job.on_stderr_data.
      destruct (Z.gtb_spec (Z.of_nat (length (Process.stderr c)))
                  (Config.output_max_size config)); [done|lia].
  - destruct (IH (Job.on_stderr_data config c d)) as [k Hk].
    exists (S k). rewrite Hk. unfold Job.on_stderr_data.
    destruct (Z.gtb_spec (Z.of_nat (length (Process.stderr c)))
                (Config.output_max_size config)); [lia|].
    simpl. by rewrite <- app_assoc.
Qed.

(** While both streams stay within the cap, every chunk is appended and
    only the timer sends a kill. *)
Lemma fold_within_cap evs : ∀ c,
  Z.of_nat (length (Process.stdout c ++ concat (stdout_chunks evs)))
    <= Config.output_max_size config →
  Z.of_nat (length (Process.stderr c ++ concat (stderr_chunks evs)))
    <= Config.output_max_size config →
  fold_left (Job.on_event config) evs c
  = Process.mk_capture (Process.stdout c ++ concat (stdout_chunks evs))
      (Process.stderr c ++ concat (stderr_chunks evs))
      (Process.kills c + timeouts_fired evs) (Process.group_killed c).
Proof.
  induction evs as [|e evs IH]; intros c Hout Herr.
  { simpl. rewrite !app_nil_r, Nat.add_0_r. by destruct c. }
  destruct e as [data|data|];
    cbn [fold_left stdout_chunks stderr_chunks timeouts_fired concat Job.on_event] in *.
  - rewrite !length_app in Hout.
    unfold Job.on_stdout_data.
    destruct (Z.gtb_spec (Z.of_nat (length (Process.stdout c)))
                (Config.output_max_size config)); [lia|].
    rewrite IH; cbn [Process.stdout Process.stderr Process.kills Process.group_killed].
    + by rewrite <- app_assoc.
    + rewrite !length_app. lia.
    + done.
  - rewrite !length_app in Herr.
    unfold Job.on_stderr_data.
    destruct (Z.gtb_spec (Z.of_nat (length (Process.stderr c)))
                (Config.output_max_size config)); [lia|].
    rewrite IH; cbn [Process.stdout Process.stderr Process.kills Process.group_killed].
    + by rewrite <- app_assoc.
    + done.
    + rewrite !length_app. lia.
  - rewrite IH by done.
    cbn [Job.on_kill_timeout Process.stdout Process.stderr Process.kills
         Process.group_killed].
    f_equal. lia.
Qed.

End Capture.

(** X5.  Truncation only cuts the end, and the two pipes do not
    interfere: the [stdout] of what [safe_call] settles to is the
    concatenation of the first so many chunks the child wrote to its
    stdout, and likewise for [stderr]; the [stdin], exit code and signal
    are carried unchanged; and the captured [stdout] is the same for any
    other interleaving of the same stdout chunks with stderr chunks and
    timer firings (likewise for [stderr]). *)
Theorem safe_call_keeps_whole_chunks
    (config : Config.t) (b : Process.behaviour) (stdin : jsstring) :
  (∃ k_out k_err,
     Job.settle config b stdin
     = match Process.ends b with
       | Process.Exit code signal =>
           Return (RunResult.mk
                     (concat (take k_out (stdout_chunks (Process.events b))))
                     (concat (take k_err (stderr_chunks (Process.events b))))
                     code signal stdin)
       | Process.SpawnError err =>
           Throw (Rejected err
                    (concat (take k_out (stdout_chunks (Process.events b))))
                    (concat (take k_err (stderr_chunks (Process.events b))))
                    stdin)
       | Process.Thrown e => Throw e
       end)
  ∧ (∀ evs, stdout_chunks evs = stdout_chunks (Process.events b) →
       Process.stdout (Job.drain config evs)
       = Process.stdout (Job.drain config (Process.events b)))
  ∧ (∀ evs, stderr_chunks evs = stderr_chunks (Process.events b) →
       Process.stderr (Job.drain config evs)
       = Process.stderr (Job.drain config (Process.events b))).
Proof.
  split; [|split].
  - destruct (stdout_whole_chunks config (stdout_chunks (Process.events b))
                (Process.mk_capture [] [] 0 false)) as [k_out Hout].
    destruct (stderr_whole_chunks config (stderr_chunks (Process.events b))
                (Process.mk_capture [] [] 0 false)) as [k_err Herr].
    exists k_out, k_err. unfold Job.settle, Job.exit_cleanup, Job.drain.
    cbn [Process.stdout Process.stderr].
    rewrite (stdout_only_chunks config (Process.events b) _
               (Process.mk_capture [] [] 0 false) eq_refl).
    rewrite (stderr_only_chunks config (Process.events b) _
               (Process.mk_capture [] [] 0 false) eq_refl).
    rewrite Hout, Herr. done.
  - intros evs Hevs. unfold Job.drain.
    rewrite (stdout_only_chunks config evs _ (Process.mk_capture [] [] 0 false) eq_refl).
    rewrite (stdout_only_chunks config (Process.events b) _
               (Process.mk_capture [] [] 0 false) eq_refl).
    by rewrite Hevs.
  - intros evs Hevs. unfold Job.drain.
    rewrite (stderr_only_chunks config evs _ (Process.mk_capture [] [] 0 false) eq_refl).
    rewrite (stderr_only_chunks config (Process.events b) _
               (Process.mk_capture [] [] 0 false) eq_refl).
    by rewrite Hevs.
Qed.

(** X6.  A child whose whole output on each pipe fits in
    [output_max_size] is captured without loss: the result holds every
    chunk of each pipe, in order, and the data handlers send no kill (the
    only kills are those of the timer). *)
Theorem safe_call_lossless_within_cap
    (config : Config.t) (b : Process.behaviour) (stdin : jsstring) :
  Z.of_nat (length (concat (stdout_chunks (Process.events b))))
    <= Config.output_max_size config →
  Z.of_nat (length (concat (stderr_chunks (Process.events b))))
    <= Config.output_max_size config →
  Job.settle config b stdin
  = match Process.ends b with
    | Process.Exit code signal =>
        Return (RunResult.mk (concat (stdout_chunks (Process.events b)))
                  (concat (stderr_chunks (Process.events b))) code signal stdin)
    | Process.SpawnError err =>
        Throw (Rejected err (concat (stdout_chunks (Process.events b)))
                 (concat (stderr_chunks (Process.events b))) stdin)
    | Process.Thrown e => Throw e
    end
  ∧ Process.kills (Job.drain config (Process.events b))
    = timeouts_fired (Process.events b).
Proof.
  intros Hout Herr. unfold Job.settle, Job.drain.
  rewrite (fold_within_cap config (Process.events b)) by done.
  done.
Qed.

(** The instance of X6 with [output_max_size = 4]: "ab" then "cd" on
    stdout, "x" on stderr in between. *)
Lemma safe_call_lossless_within_cap_witness :
  Job.settle sample_config
    (Process.mk_behaviour
       [Process.StdoutData (js "ab"); Process.StderrData (js "x");
        Process.StdoutData (js "cd")]
       (Process.Exit (Some 0) None)) (js "in")
  = Return (exited (js "abcd") (js "x") (js "in")).
Proof.
  apply (safe_call_lossless_within_cap sample_config
           (Process.mk_behaviour
              [Process.StdoutData (js "ab"); Process.StderrData (js "x");
               Process.StdoutData (js "cd")]
              (Process.Exit (Some 0) None)) (js "in"));
    vm_compute; discriminate.
Defined.

(* ================================================================== *)
(** ** Further properties: the workspace after [prime] *)
(* ================================================================== *)

Section Ownership.

Variable FS : Type.
Variable mkdir : list jsstring → Z → FS → FS * option jsstring.
Variable chown : list jsstring → Z → Z → FS → FS * option jsstring.
Variable write_file : list jsstring → jsstring → FS → FS * option jsstring.

(** The owner of a path, for a file system in which a successful [chown]
    sets the owner of its path and neither [chown] nor [write_file]
    changes the owner of another path. *)
Variable owner : FS → list jsstring → option (Z * Z).

Hypothesis chown_sets : ∀ p u g fs fs',
  chown p u g fs = (fs', None) → owner fs' p = Some (u, g).
Hypothesis chown_frame : ∀ p u g fs fs' q,
  chown p u g fs = (fs', None) → q ≠ p → owner fs' q = owner fs q.
Hypothesis write_file_frame : ∀ p c fs fs' q,
  write_file p c fs = (fs', None) → q ≠ p → owner fs' q = owner fs q.

(** The loop of [prime]: every file written is owned by the job at the
    end, and no other path changes owner. *)
Lemma write_files_owner (this : Job.t) (files : list FileSpec.t) : ∀ fs fs',
  Job.write_files FS chown write_file this files fs = (fs', None) →
  (∀ f, f ∈ files →
     owner fs' (Job.dir this ++ [FileSpec.name f]) = Some (Job.uid this, Job.gid this))
  ∧ (∀ q, (∀ f, f ∈ files → q ≠ Job.dir this ++ [FileSpec.name f]) →
       owner fs' q = owner fs q).
Proof.
  induction files as [|file files IH]; intros fs fs' Hwrite.
  { simpl in Hwrite. simplify_eq. split; [by intros f Hf%elem_of_nil|done]. }
  cbn [Job.write_files] in Hwrite.
  destruct (write_file _ _ fs) as [fs1 [e|]] eqn:Hw; [done|].
  destruct (chown _ _ _ fs1) as [fs2 [e|]] eqn:Hc; [done|].
  destruct (IH fs2 fs' Hwrite) as [Hin Hout].
  split.
  - intros f Hf.
    destruct (decide (Exists (λ f', Job.dir this ++ [FileSpec.name f]
                                     = Job.dir this ++ [FileSpec.name f']) files))
      as [Hlater|Hlast].
    + apply Exists_exists in Hlater as (f' & Hf' & ->). by apply Hin.
    + apply elem_of_cons in Hf as [->|Hf].
      * rewrite Hout; [by eapply chown_sets|].
        intros f' Hf' Heq. apply Hlast, Exists_exists. by exists f'.
      * by apply Hin.
  - intros q Hq. rewrite Hout.
    + rewrite (chown_frame _ _ _ _ _ q Hc), (write_file_frame _ _ _ _ q Hw); [done|..];
        apply Hq, elem_of_cons; by left.
    + intros f Hf. apply Hq, elem_of_cons. by right.
Qed.

Lemma prime_owner (this this' : Job.t) (fs fs' : FS) :
  Job.prime FS mkdir chown write_file this fs = (Return tt, this', fs') →
  owner fs' (Job.dir this) = Some (Job.uid this, Job.gid this)
  ∧ ∀ f, f ∈ Job.files this →
      owner fs' (Job.dir this ++ [FileSpec.name f]) = Some (Job.uid this, Job.gid this).
Proof.
  unfold Job.prime. intros Hprime.
  destruct (mkdir _ _ fs) as [fs1 [e|]]; [done|].
  destruct (chown _ _ _ fs1) as [fs2 [e|]] eqn:Hc; [done|].
  destruct (Job.write_files _ _ _ _ _ fs2) as [fs3 [e|]] eqn:Hw; [done|].
  simplify_eq. apply write_files_owner in Hw as [Hin Hout].
  split; [|exact Hin].
  rewrite Hout; [by eapply chown_sets|].
  intros f _ Heq. apply (f_equal length) in Heq. rewrite length_app in Heq.
  simpl in Heq. lia.
Qed.

End Ownership.

(** X7.  On a file system in which a successful [chown] sets the owner
    of its path and neither [chown] nor [write_file] changes the owner of
    another path: when [prime] resolves, the job's directory and the path
    of every one of its files are owned by the job's [(uid, gid)], also
    when two files have the same name, and the job is primed. *)
Theorem prime_gives_ownership
    (FS : Type) (mkdir : list jsstring → Z → FS → FS * option jsstring)
    (chown : list jsstring → Z → Z → FS → FS * option jsstring)
    (write_file : list jsstring → jsstring → FS → FS * option jsstring)
    (owner : FS → list jsstring → option (Z * Z))
    (this this' : Job.t) (fs fs' : FS) :
  (∀ p u g fs fs', chown p u g fs = (fs', None) → owner fs' p = Some (u, g)) →
  (∀ p u g fs fs' q, chown p u g fs = (fs', None) → q ≠ p → owner fs' q = owner fs q) →
  (∀ p c fs fs' q, write_file p c fs = (fs', None) → q ≠ p → owner fs' q = owner fs q) →
  Job.prime FS mkdir chown write_file this fs = (Return tt, this', fs') →
  this' = Job.set_state this PRIMED
  ∧ owner fs' (Job.dir this) = Some (Job.uid this, Job.gid this)
  ∧ ∀ f, f ∈ Job.files this →
      owner fs' (Job.dir this ++ [FileSpec.name f]) = Some (Job.uid this, Job.gid this).
Proof.
  intros Hsets Hframe Hwrite Hprime. split.
  - unfold Job.prime in Hprime.
    destruct (mkdir _ _ fs) as [fs1 [e|]]; [done|].
    destruct (chown _ _ _ fs1) as [fs2 [e|]]; [done|].
    destruct (Job.write_files _ _ _ _ _ fs2) as [fs3 [e|]]; [done|].
    by simplify_eq.
  - by eapply prime_owner.
Qed.

Lemma OwnedFs_chown_sets p u g (fs fs' : OwnedFs.t) :
  OwnedFs.chown p u g fs = (fs', None) → OwnedFs.owner fs' p = Some (u, g).
Proof.
  unfold OwnedFs.chown, OwnedFs.owner. destruct (fs p); [|done].
  intros [= <-]. unfold OwnedFs.set. by rewrite decide_True.
Qed.

Lemma OwnedFs_chown_frame p u g (fs fs' : OwnedFs.t) q :
  OwnedFs.chown p u g fs = (fs', None) → q ≠ p →
  OwnedFs.owner fs' q = OwnedFs.owner fs q.
Proof.
  unfold OwnedFs.chown, OwnedFs.owner. destruct (fs p); [|done].
  intros [= <-] Hq. unfold OwnedFs.set. by rewrite decide_False.
Qed.

Lemma OwnedFs_write_file_frame p c (fs fs' : OwnedFs.t) q :
  OwnedFs.write_file p c fs = (fs', None) → q ≠ p →
  OwnedFs.owner fs' q = OwnedFs.owner fs q.
Proof.
  unfold OwnedFs.write_file, OwnedFs.owner. destruct (fs p); intros [= <-] Hq; [done|].
  unfold OwnedFs.set. by rewrite decide_False.
Qed.

(** The instance of X7 on the sample job and the empty file system. *)
Lemma prime_gives_ownership_witness :
  OwnedFs.owner
    (Job.prime OwnedFs.t OwnedFs.mkdir OwnedFs.chown OwnedFs.write_file
       (sample_job python (js "a.py") [js "x"] None READY) OwnedFs.empty).2
    [js "/piston"; js "jobs"; js "uuid-1"; js "a.py"]
  = Some (1001, 2001).
Proof.
  destruct (prime_gives_ownership OwnedFs.t OwnedFs.mkdir OwnedFs.chown
              OwnedFs.write_file OwnedFs.owner
              (sample_job python (js "a.py") [js "x"] None READY)
              (sample_job python (js "a.py") [js "x"] None PRIMED)
              OwnedFs.empty
              (Job.prime OwnedFs.t OwnedFs.mkdir OwnedFs.chown OwnedFs.write_file
                 (sample_job python (js "a.py") [js "x"] None READY) OwnedFs.empty).2
              OwnedFs_chown_sets OwnedFs_chown_frame OwnedFs_write_file_frame)
    as (_ & _ & Hfiles).
  - reflexivity.
  - apply (Hfiles (FileSpec.mk (js "a.py") (js "source"))).
    apply list_elem_of_singleton. reflexivity.
Defined.

(* ================================================================== *)
(** ** Further properties: [execute] *)
(* ================================================================== *)

Section ExecuteMore.

Variable config : Config.t.
Variable child : nat → Process.request → Process.behaviour.
Variable finish : nat → nat.

Lemma settle_stdin b stdin r :
  Job.settle config b stdin = Return r → RunResult.stdin r = stdin.
Proof. unfold Job.settle. destruct (Process.ends b); [|done..]. by intros [= <-]. Qed.


Lemma run_phase_this_fields this :
  Job.uuid (run_phase_this this) = Job.uuid this
  ∧ Job.runtime (run_phase_this this) = Job.runtime this
  ∧ Job.files (run_phase_this this) = Job.files this
  ∧ Job.args (run_phase_this this) = Job.args this
  ∧ Job.expected_output (run_phase_this this) = Job.expected_output this
  ∧ Job.timeouts (run_phase_this this) = Job.timeouts this
  ∧ Job.alias (run_phase_this this) = Job.alias this
  ∧ Job.uid (run_phase_this this) = Job.uid this
  ∧ Job.gid (run_phase_this this) = Job.gid this
  ∧ Job.dir (run_phase_this this) = Job.dir this.
Proof. unfold run_phase_this. by destruct (_ && _). Qed.

Lemma sandboxed_run_request this s :
  sandboxed config this (run_request config (run_phase_this this) s).
Proof.
  destruct (run_phase_this_fields this) as (_ & Hrt & _ & _ & _ & _ & Hal & Hu & Hg & Hd).
  unfold sandboxed, run_request, Job.spawn_request.
  cbn [Process.nproc Process.nofile Process.nosocket Process.env_vars
       Process.PISTON_ALIAS Process.cwd Process.uid Process.gid].
  by rewrite Hrt, Hal, Hu, Hg, Hd.
Qed.

(** What [evaluate] leaves in each entry of the [run] it returns. *)
Lemma evaluate_entries this run compile res :
  (Job.evaluate this run compile).1.1 = Return res →
  ∀ i r, run !! i = Some r →
    Job.run res !! i = Some r ∨ Job.run res !! i = Some (trimmed r).
Proof.
  unfold Job.evaluate.
  destruct (Job.evaluate_loop this (length run) 0 run) as [[v|e] run'] eqn:Hloop;
    cbn [fst snd]; [|done].
  intros [= <-]. cbn [Job.run].
  by apply evaluate_loop_frame in Hloop as (_ & _ & Hentry & _).
Qed.








End ExecuteMore.



(** X9.  Whatever [execute] returns has one of the five statuses
    COMPILATION, RUNTIME, TLE, WA and AC: it never answers MLE, PENDING
    or ERROR. *)
Theorem execute_statuses
    (config : Config.t) (child : nat → Process.request → Process.behaviour)
    (finish : nat → nat) (this : Job.t) (w : Process.world) (res : Job.result) :
  (Job.execute config child finish this w).1.1 = Return res →
  get (Job.verdict res) "status"
  ∈ [Str Verdict.COMPILATION; Str Verdict.RUNTIME; Str Verdict.TLE;
     Str Verdict.WA; Str Verdict.AC]
  ∧ get (Job.verdict res) "status" ∉ [Str Verdict.MLE; Str Verdict.PENDING; Str Verdict.ERROR].
Proof.
  intros Hres.
  assert (Hin : get (Job.verdict res) "status"
    ∈ [Str Verdict.COMPILATION; Str Verdict.RUNTIME; Str Verdict.TLE;
       Str Verdict.WA; Str Verdict.AC]).
  { revert Hres. rewrite execute_phases. case_bool_decide; [done|]. cbn zeta.
    assert (Hrun : ∀ compile w1,
      match (dispatch config child finish this w1).1 with
      | Throw e' => (Throw e', run_phase_this this, (dispatch config child finish this w1).2)
      | Return run =>
          ((Job.evaluate (Job.set_state (run_phase_this this) EXECUTED) run compile).1.1,
           (Job.evaluate (Job.set_state (run_phase_this this) EXECUTED) run compile).1.2,
           (dispatch config child finish this w1).2)
      end.1.1 = Return res →
      get (Job.verdict res) "status"
      ∈ [Str Verdict.COMPILATION; Str Verdict.RUNTIME; Str Verdict.TLE;
         Str Verdict.WA; Str Verdict.AC]).
    { intros compile w1 Hr.
      destruct (dispatch config child finish this w1) as [[run|e'] w2]; cbn [fst snd] in Hr;
        [|done].
      apply evaluate_result in Hr as (_ & _ & _ & s & a & b & x & -> & Hs).
      change (get (Job.run_verdict s a b x) "status") with (Str s).
      apply list_elem_of_further.
      rewrite !elem_of_cons in Hs. rewrite !elem_of_cons.
      destruct Hs as [->|[->|[->|[->|[]%elem_of_nil]]]]; auto. }
    destruct (Runtime.compiled (Job.runtime this)); [|by apply Hrun].
    destruct (compile_outcome config child this w) as [c|e']; [|done].
    destruct (truthy (RunResult.stderr c) || is_SIGKILL (RunResult.signal c));
      [|by apply Hrun].
    cbn [fst]. intros [= <-]. apply list_elem_of_here. }
  split; [done|].
  intros Hout. rewrite !elem_of_cons in Hin. rewrite !elem_of_cons in Hout.
  destruct Hin as [Hs|[Hs|[Hs|[Hs|[Hs|[]%elem_of_nil]]]]];
    rewrite Hs in Hout;
    destruct Hout as [H|[H|[H|[]%elem_of_nil]]]; discriminate H.
Qed.

(** The instance of X9 on a java job whose compile script fails. *)
Lemma execute_statuses_witness :
  Str Verdict.COMPILATION
  ∈ [Str Verdict.COMPILATION; Str Verdict.RUNTIME; Str Verdict.TLE;
     Str Verdict.WA; Str Verdict.AC].
Proof.
  exact (proj1 (execute_statuses sample_config sample_child sample_finish
                  (sample_job java (js "Main.java") [js "1"; js "2"] None PRIMED)
                  empty_world
                  (Job.mk_result
                     (Some (RunResult.mk [] (js "syntax error") (Some 1) None []))
                     []
                     [("status", Str Verdict.COMPILATION);
                      ("output", Str (js "syntax error"));
                      ("stdin", Null); ("expectedOutput", Null)]%string)
                  eq_refl)).
Defined.

(** X10.  [execute] changes nothing of the job but its [main] and its
    state: the [main] is kept or, for a compiled java runtime, loses its
    last five units; the state is kept or goes from primed to executed. *)
Theorem execute_frame
    (config : Config.t) (child : nat → Process.request → Process.behaviour)
    (finish : nat → nat) (this : Job.t) (w : Process.world) :
  let this' := (Job.execute config child finish this w).1.2 in
  Job.uuid this' = Job.uuid this
  ∧ Job.runtime this' = Job.runtime this
  ∧ Job.files this' = Job.files this
  ∧ Job.args this' = Job.args this
  ∧ Job.stdin this' = Job.stdin this
  ∧ Job.expected_output this' = Job.expected_output this
  ∧ Job.timeouts this' = Job.timeouts this
  ∧ Job.alias this' = Job.alias this
  ∧ Job.uid this' = Job.uid this
  ∧ Job.gid this' = Job.gid this
  ∧ Job.dir this' = Job.dir this
  ∧ (Job.main this' = Job.main this
     ∨ (Runtime.language (Job.runtime this) = js "java"
        ∧ Runtime.compiled (Job.runtime this) = true
        ∧ Job.main this' = slice_0_neg 5 (Job.main this)))
  ∧ (Job.state this' = Job.state this
     ∨ (Job.state this = PRIMED ∧ Job.state this' = EXECUTED)).
Proof.
  cbn zeta. rewrite execute_phases. case_bool_decide as Hstate.
  { cbn [fst snd]. repeat split; auto. }
  assert (Hprimed : Job.state this = PRIMED)
    by (destruct (decide (Job.state this = PRIMED)); [done|by destruct Hstate]).
  cbn zeta.
  assert (Hmain : Job.main (run_phase_this this) = Job.main this
     ∨ (Runtime.language (Job.runtime this) = js "java"
        ∧ Runtime.compiled (Job.runtime this) = true
        ∧ Job.main (run_phase_this this) = slice_0_neg 5 (Job.main this))).
  { unfold run_phase_this. case_bool_decide as Hjava; cbn [andb]; [|by left].
    destruct (Runtime.compiled (Job.runtime this)); [by right|by left]. }
  destruct (run_phase_this_fields this)
    as (Huuid & Hrt & Hfiles & Hargs & Heo & Hto & Halias & Huid & Hgid & Hdir).
  pose proof (run_phase_this_stdin this) as Hstdin.
  pose proof (run_phase_this_state this) as Hst.
  assert (Hrun : ∀ compile (d : completion (list RunResult.t) * Process.world),
    let this' :=
      match d.1 with
      | Throw e' => (Throw e', run_phase_this this, d.2)
      | Return run =>
          ((Job.evaluate (Job.set_state (run_phase_this this) EXECUTED) run compile).1.1,
           (Job.evaluate (Job.set_state (run_phase_this this) EXECUTED) run compile).1.2,
           d.2)
      end.1.2 in
    Job.uuid this' = Job.uuid this
    ∧ Job.runtime this' = Job.runtime this
    ∧ Job.files this' = Job.files this
    ∧ Job.args this' = Job.args this
    ∧ Job.stdin this' = Job.stdin this
    ∧ Job.expected_output this' = Job.expected_output this
    ∧ Job.timeouts this' = Job.timeouts this
    ∧ Job.alias this' = Job.alias this
    ∧ Job.uid this' = Job.uid this
    ∧ Job.gid this' = Job.gid this
    ∧ Job.dir this' = Job.dir this
    ∧ (Job.main this' = Job.main this
       ∨ (Runtime.language (Job.runtime this) = js "java"
          ∧ Runtime.compiled (Job.runtime this) = true
          ∧ Job.main this' = slice_0_neg 5 (Job.main this)))
    ∧ (Job.state this' = Job.state this
       ∨ (Job.state this = PRIMED ∧ Job.state this' = EXECUTED))).
  { intros compile [[run|e'] w2]; cbn [fst snd].
    - rewrite evaluate_this. cbn [Job.set_state Job.uuid Job.runtime Job.files Job.args
        Job.stdin Job.expected_output Job.timeouts Job.alias Job.uid Job.gid Job.dir
        Job.main Job.state].
      repeat split; auto.
    - repeat split; auto. }
  destruct (Runtime.compiled (Job.runtime this)); [|apply Hrun].
  destruct (compile_outcome config child this w) as [c|e'];
    [|cbn [fst snd]; repeat split; auto].
  destruct (truthy (RunResult.stderr c) || is_SIGKILL (RunResult.signal c));
    [cbn [fst snd]; repeat split; auto|apply Hrun].
Qed.

(** X11.  When [execute] returns from the run phase, [run] holds one
    result per entry of [this.stdin], in the same order, and each result
    carries the [stdin] it was fed. *)
Theorem execute_results_follow_stdin
    (config : Config.t) (child : nat → Process.request → Process.behaviour)
    (finish : nat → nat) (this : Job.t) (w w1 : Process.world)
    (compile : option RunResult.t) (res : Job.result) :
  Job.state this = PRIMED →
  compile_passes config child this w compile w1 →
  (Job.execute config child finish this w).1.1 = Return res →
  length (Job.run res) = length (Job.stdin this)
  ∧ ∀ i s, Job.stdin this !! i = Some s →
      ∃ r, Job.run res !! i = Some r ∧ RunResult.stdin r = s.
Proof.
  intros Hstate Hpass.
  rewrite (execute_run_phase config child finish this w compile w1 Hstate Hpass).
  pose proof (proj1 (dispatch_spec config child finish this w1)) as Hseq.
  destruct (dispatch config child finish this w1) as [[run|e] w2]; cbn [fst snd] in *; [|done].
  intros Hres.
  pose proof (proj1 (Hseq run) eq_refl) as Hs.
  apply sequence_run_outcomes in Hs as [Hlen Hentries].
  split.
  - apply evaluate_result in Hres as (_ & _ & Hl & _). congruence.
  - intros i s Hi. destruct (Hentries i s Hi) as (r & Hr & Hsettle).
    apply settle_stdin in Hsettle.
    destruct (evaluate_entries _ _ _ _ Hres i r Hr) as [Hri|Hri].
    + by exists r.
    + by exists (trimmed r).
Qed.

(** The instance of X11 on a python job with two inputs, whose run script
    echoes its input. *)
Lemma execute_results_follow_stdin_witness :
  ∃ res,
    (Job.execute sample_config sample_child sample_finish
       (sample_job python (js "a.py") [js "1"; js "2"] None PRIMED) empty_world).1.1
    = Return res
    ∧ length (Job.run res) = 2%nat.
Proof.
  eexists. split; [reflexivity|].
  apply (execute_results_follow_stdin sample_config sample_child sample_finish
           (sample_job python (js "a.py") [js "1"; js "2"] None PRIMED)
           empty_world empty_world None _ eq_refl).
  - left. by repeat split.
  - reflexivity.
Defined.

(** X12.  On a primed job with no [stdin] entry whose compile phase
    passes, [execute] spawns no run call and returns AC with null [stdout]
    and [stdin] and an empty [run]; the job is executed.  (A compiled
    runtime still compiles: the compile call is in [w1].) *)
Theorem execute_without_stdin
    (config : Config.t) (child : nat → Process.request → Process.behaviour)
    (finish : nat → nat) (this : Job.t) (w w1 : Process.world)
    (compile : option RunResult.t) :
  Job.state this = PRIMED →
  Job.stdin this = [] →
  compile_passes config child this w compile w1 →
  Job.execute config child finish this w
  = (Return (Job.mk_result compile [] (Job.run_verdict Verdict.AC Null Null Null)),
     Job.set_state (run_phase_this this) EXECUTED, w1).
Proof.
  intros Hstate Hstdin Hpass.
  rewrite (execute_run_phase config child finish this w compile w1 Hstate Hpass).
  assert (Hd : dispatch config child finish this w1 = (Return [], w1)).
  { unfold dispatch, Job.run_in_band, Job.run_in_parallel.
    rewrite run_phase_this_stdin, Hstdin. by case_bool_decide. }
  rewrite Hd. cbn [fst snd]. unfold Job.evaluate. cbn [length Job.evaluate_loop].
  cbn [Job.set_state Job.stdin]. rewrite run_phase_this_stdin, Hstdin. done.
Qed.

(** The instance of X12 on a compiled java job with no input and a
    silent compile script: one child is spawned, the compile call. *)
Lemma execute_without_stdin_witness :
  requests (Process.trace
    (Job.execute sample_config quiet_child sample_finish
       (sample_job java (js "Main.java") [] None PRIMED) empty_world).2)
  = [compile_request sample_config (sample_job java (js "Main.java") [] None PRIMED)].
Proof.
  rewrite (execute_without_stdin sample_config quiet_child sample_finish
             (sample_job java (js "Main.java") [] None PRIMED) empty_world
             (compiled_world sample_config
                (sample_job java (js "Main.java") [] None PRIMED) empty_world)
             (Some (RunResult.mk [] [] (Some 0) None []))).
  - reflexivity.
  - reflexivity.
  - reflexivity.
  - right. split; [reflexivity|]. eexists. split; [reflexivity|].
    split; [reflexivity|]. split; [discriminate|]. split; reflexivity.
Defined.

Lemma Forall_prefix {A} (P : A → Prop) (l1 l2 : list A) :
  l1 `prefix_of` l2 → Forall P l2 → Forall P l1.
Proof. intros [k ->] H. by apply Forall_app in H as [? _]. Qed.

(** X13.  Every child [execute] spawns -- the compile call and each run
    call -- gets the process and file limits of the configuration, the
    [nosocket] wrapper when networking is disabled, the environment of the
    runtime with the job's alias, the job's directory as working directory
    and the job's [uid] and [gid]; and it runs the [compile] or the [run]
    script of the runtime's package. *)
Theorem execute_children_are_sandboxed
    (config : Config.t) (child : nat → Process.request → Process.behaviour)
    (finish : nat → nat) (this : Job.t) (w : Process.world) :
  ∃ t, Process.trace (Job.execute config child finish this w).2 = Process.trace w ++ t
       ∧ Forall (λ req,
                   sandboxed config this req
                   ∧ (Process.file req = Runtime.pkgdir (Job.runtime this) ++ [js "compile"]
                      ∨ Process.file req = Runtime.pkgdir (Job.runtime this) ++ [js "run"]))
                (requests t).
Proof.
  rewrite execute_phases. case_bool_decide as Hstate.
  { exists []. by rewrite app_nil_r. }
  cbn zeta.
  assert (Hreqs : ∀ stdin,
    Forall (λ req,
              sandboxed config this req
              ∧ (Process.file req = Runtime.pkgdir (Job.runtime this) ++ [js "compile"]
                 ∨ Process.file req = Runtime.pkgdir (Job.runtime this) ++ [js "run"]))
           (map (run_request config (run_phase_this this)) stdin)).
  { intros stdin. apply Forall_forall. intros req (s & -> & _)%list_elem_of_fmap.
    split; [apply sandboxed_run_request|]. right.
    unfold run_request, Job.spawn_request. cbn [Process.file].
    by rewrite (proj1 (proj2 (run_phase_this_fields this))). }
  assert (Hcompile :
    sandboxed config this (compile_request config this)
    ∧ (Process.file (compile_request config this)
       = Runtime.pkgdir (Job.runtime this) ++ [js "compile"]
       ∨ Process.file (compile_request config this)
         = Runtime.pkgdir (Job.runtime this) ++ [js "run"])).
  { split; [by repeat split|by left]. }
  assert (Hrun : ∀ compile w1 t1,
    Process.trace w1 = Process.trace w ++ t1 →
    Forall (λ req,
              sandboxed config this req
              ∧ (Process.file req = Runtime.pkgdir (Job.runtime this) ++ [js "compile"]
                 ∨ Process.file req = Runtime.pkgdir (Job.runtime this) ++ [js "run"]))
           (requests t1) →
    ∃ t, Process.trace
           match (dispatch config child finish this w1).1 with
           | Throw e' =>
               (Throw e', run_phase_this this, (dispatch config child finish this w1).2)
           | Return run =>
               ((Job.evaluate (Job.set_state (run_phase_this this) EXECUTED) run compile).1.1,
                (Job.evaluate (Job.set_state (run_phase_this this) EXECUTED) run compile).1.2,
                (dispatch config child finish this w1).2)
           end.2 = Process.trace w ++ t
         ∧ Forall (λ req,
                     sandboxed config this req
                     ∧ (Process.file req
                        = Runtime.pkgdir (Job.runtime this) ++ [js "compile"]
                        ∨ Process.file req
                          = Runtime.pkgdir (Job.runtime this) ++ [js "run"]))
                  (requests t)).
  { intros compile w1 t1 Hw1 Ht1.
    destruct (dispatch_spec config child finish this w1) as (_ & t & Htrace & Hpre & _).
    exists (t1 ++ t). split.
    - destruct (dispatch config child finish this w1) as [[run|e'] w2]; cbn [fst snd] in *;
        by rewrite Htrace, Hw1, <- app_assoc.
    - rewrite requests_app. apply Forall_app. split; [done|].
      eapply Forall_prefix; [exact Hpre|apply Hreqs]. }
  destruct (Runtime.compiled (Job.runtime this)).
  - assert (Hcw : Process.trace (compiled_world config this w)
                  = Process.trace w
                    ++ [Process.Spawned (Process.spawned w) (compile_request config this);
                        Process.Settled (Process.spawned w)]) by done.
    assert (Hct : Forall (λ req,
              sandboxed config this req
              ∧ (Process.file req = Runtime.pkgdir (Job.runtime this) ++ [js "compile"]
                 ∨ Process.file req = Runtime.pkgdir (Job.runtime this) ++ [js "run"]))
           (requests [Process.Spawned (Process.spawned w) (compile_request config this);
                      Process.Settled (Process.spawned w)])).
    { cbn [requests]. by constructor. }
    destruct (compile_outcome config child this w) as [c|e'];
      [|by eexists].
    destruct (truthy (RunResult.stderr c) || is_SIGKILL (RunResult.signal c));
      [by eexists|].
    by eapply Hrun.
  - apply (Hrun None w []); [by rewrite app_nil_r|constructor].
Qed.

(** X14.  When a run call of a primed job on a compiled java runtime is
    rejected, [execute] rejects with it and the job is left primed, so it
    can be executed again, but with its [main] already shortened by five
    units. *)
Theorem execute_rejected_java_run
    (config : Config.t) (child : nat → Process.request → Process.behaviour)
    (finish : nat → nat) (this : Job.t) (w w1 : Process.world)
    (compile : option RunResult.t) (e : exn) :
  Job.state this = PRIMED →
  Runtime.language (Job.runtime this) = js "java" →
  Runtime.compiled (Job.runtime this) = true →
  compile_passes config child this w compile w1 →
  (dispatch config child finish this w1).1 = Throw e →
  let out := Job.execute config child finish this w in
  out.1.1 = Throw e
  ∧ Job.state out.1.2 = PRIMED
  ∧ Job.main out.1.2 = slice_0_neg 5 (Job.main this)
  ∧ Job.main (run_phase_this out.1.2) = slice_0_neg 5 (slice_0_neg 5 (Job.main this)).
Proof.
  intros Hstate Hjava Hcompiled Hpass Hd out. subst out.
  rewrite (execute_run_phase config child finish this w compile w1 Hstate Hpass), Hd.
  cbn [fst snd]. unfold run_phase_this.
  rewrite Hjava, Hcompiled, bool_decide_eq_true_2 by done. cbn [andb].
  cbn [Job.set_main Job.runtime Job.main Job.state].
  rewrite Hjava, Hcompiled, bool_decide_eq_true_2 by done. cbn [andb Job.main].
  done.
Qed.

(** The instance of X14 on "Main.java" with a run script that cannot be
    spawned: the job is still primed and its [main] is "Main". *)
Lemma execute_rejected_java_run_witness :
  Job.state
    (Job.execute sample_config unspawnable_child sample_finish
       (sample_job java (js "Main.java") [js "1"; js "2"] None PRIMED) empty_world).1.2
  = PRIMED
  ∧ Job.main
      (Job.execute sample_config unspawnable_child sample_finish
         (sample_job java (js "Main.java") [js "1"; js "2"] None PRIMED) empty_world).1.2
    = js "Main".
Proof.
  destruct (execute_rejected_java_run sample_config unspawnable_child sample_finish
              (sample_job java (js "Main.java") [js "1"; js "2"] None PRIMED) empty_world
              (compiled_world sample_config
                 (sample_job java (js "Main.java") [js "1"; js "2"] None PRIMED)
                 empty_world)
              (Some (RunResult.mk [] [] (Some 0) None []))
              (Rejected (js "ENOENT") [] [] (js "1")))
    as (_ & Hstate & Hmain & _).
  - reflexivity.
  - reflexivity.
  - reflexivity.
  - right. split; [reflexivity|]. eexists. split; [reflexivity|].
    split; [reflexivity|]. split; [discriminate|]. split; reflexivity.
  - reflexivity.
  - split; [exact Hstate|]. rewrite Hmain. reflexivity.
Defined.

(** The loop of [run_in_band] up to the first rejection. *)
Lemma run_in_band_loop_rejection config child this : ∀ stdin k run w e,
  run_outcomes config child this (Process.spawned w) stdin !! k = Some (Throw e) →
  (∀ j, (j < k)%nat →
     ∃ r, run_outcomes config child this (Process.spawned w) stdin !! j = Some (Return r)) →
  (Job.run_in_band_loop config child this stdin run w).1 = Throw e
  ∧ requests (Process.trace (Job.run_in_band_loop config child this stdin run w).2)
    = requests (Process.trace w) ++ take (S k) (map (run_request config this) stdin).
Proof.
  induction stdin as [|s stdin IH]; intros k run w e Hk Hbefore; [done|].
  cbn [Job.run_in_band_loop]. unfold Job.run_call, Job.safe_call, Job.await.
  cbn [fst snd Process.trace Process.spawned].
  fold (run_request config this s).
  cbn [run_outcomes] in Hk, Hbefore.
  destruct k as [|k].
  - simpl in Hk. injection Hk as ->. cbn [fst snd Process.trace].
    split; [done|]. rewrite !requests_app. cbn [requests take map].
    by rewrite app_nil_r, take_0.
  - destruct (Hbefore 0%nat) as [r Hr]; [lia|]. simpl in Hr. injection Hr as ->.
    destruct (IH k (run ++ [r])
                (Process.mk_world
                   ((Process.trace w
                     ++ [Process.Spawned (Process.spawned w) (run_request config this s)])
                    ++ [Process.Settled (Process.spawned w)])
                   (S (Process.spawned w))) e) as [Hout Hreq].
    + exact Hk.
    + intros j Hj. destruct (Hbefore (S j)) as [r' Hr']; [lia|]. by exists r'.
    + split; [exact Hout|]. rewrite Hreq. cbn [Process.trace].
      rewrite !requests_app. cbn [requests take map]. by rewrite app_nil_r, <- app_assoc.
Qed.

(** X15.  When the run call on entry [k] is the first, in index order,
    to be rejected: [run_in_band] rejects with that rejection and spawns
    the calls on the entries up to [k] only, while [run_in_parallel], which
    rejects too, has spawned the calls on all the entries. *)
Theorem run_in_band_stops_at_rejection
    (config : Config.t) (child : nat → Process.request → Process.behaviour)
    (finish : nat → nat) (this : Job.t) (w : Process.world) (k : nat) (e : exn) :
  run_outcomes config child this (Process.spawned w) (Job.stdin this) !! k
  = Some (Throw e) →
  (∀ j, (j < k)%nat →
     ∃ r, run_outcomes config child this (Process.spawned w) (Job.stdin this) !! j
          = Some (Return r)) →
  (Job.run_in_band config child this w).1 = Throw e
  ∧ requests (Process.trace (Job.run_in_band config child this w).2)
    = requests (Process.trace w)
      ++ take (S k) (map (run_request config this) (Job.stdin this))
  ∧ (∃ e', (Job.run_in_parallel config child finish this w).1 = Throw e')
  ∧ requests (Process.trace (Job.run_in_parallel config child finish this w).2)
    = requests (Process.trace w) ++ map (run_request config this) (Job.stdin this).
Proof.
  intros Hk Hbefore.
  destruct (run_in_band_loop_rejection config child this (Job.stdin this) k [] w e Hk Hbefore)
    as [Hout Hreq].
  split; [exact Hout|]. split; [exact Hreq|].
  destruct (run_in_parallel_spec config child finish this w)
    as (Hpar & t & Htrace & _ & Hreqs).
  split.
  - destruct (Job.run_in_parallel config child finish this w).1 as [L|e'] eqn:HL;
      [|by exists e'].
    pose proof (proj1 (Hpar L) eq_refl) as Hseq.
    apply sequence_Return in Hseq. rewrite Hseq, list_lookup_fmap in Hk.
    by destruct (L !! k).
  - by rewrite Htrace, requests_app, Hreqs.
Qed.

(** The instance of X15 on two inputs and a run script that cannot be
    spawned: [run_in_band] spawns one child, [run_in_parallel] two. *)
Lemma run_in_band_stops_at_rejection_witness :
  length (requests (Process.trace
    (Job.run_in_band sample_config unspawnable_child
       (sample_job python (js "a.py") [js "1"; js "2"] None PRIMED) empty_world).2))
  = 1%nat
  ∧ length (requests (Process.trace
      (Job.run_in_parallel sample_config unspawnable_child sample_finish
         (sample_job python (js "a.py") [js "1"; js "2"] None PRIMED) empty_world).2))
    = 2%nat.
Proof.
  destruct (run_in_band_stops_at_rejection sample_config unspawnable_child sample_finish
              (sample_job python (js "a.py") [js "1"; js "2"] None PRIMED) empty_world
              0 (Rejected (js "ENOENT") [] [] (js "1")))
    as (_ & Hband & _ & Hpar).
  - reflexivity.
  - intros j Hj. lia.
  - rewrite Hband, Hpar. split; reflexivity.
Defined.

(** X16.  What [execute] returns does not depend on the order in which
    the children of a parallel dispatch finish: under any two finishing
    orders it returns the same result or returns under neither. *)
Theorem execute_result_ignores_finishing_order
    (config : Config.t) (child : nat → Process.request → Process.behaviour)
    (finish finish' : nat → nat) (this : Job.t) (w : Process.world) (res : Job.result) :
  (Job.execute config child finish this w).1.1 = Return res
  ↔ (Job.execute config child finish' this w).1.1 = Return res.
Proof.
  assert (Hone : ∀ f f',
    (Job.execute config child f this w).1.1 = Return res →
    (Job.execute config child f' this w).1.1 = Return res).
  { intros f f'. rewrite !execute_phases. case_bool_decide; [done|]. cbn zeta.
    assert (Hrun : ∀ compile w1,
      match (dispatch config child f this w1).1 with
      | Throw e' => (Throw e', run_phase_this this, (dispatch config child f this w1).2)
      | Return run =>
          ((Job.evaluate (Job.set_state (run_phase_this this) EXECUTED) run compile).1.1,
           (Job.evaluate (Job.set_state (run_phase_this this) EXECUTED) run compile).1.2,
           (dispatch config child f this w1).2)
      end.1.1 = Return res →
      match (dispatch config child f' this w1).1 with
      | Throw e' => (Throw e', run_phase_this this, (dispatch config child f' this w1).2)
      | Return run =>
          ((Job.evaluate (Job.set_state (run_phase_this this) EXECUTED) run compile).1.1,
           (Job.evaluate (Job.set_state (run_phase_this this) EXECUTED) run compile).1.2,
           (dispatch config child f' this w1).2)
      end.1.1 = Return res).
    { intros compile w1.
      pose proof (proj1 (dispatch_spec config child f this w1)) as Hf.
      pose proof (proj1 (dispatch_spec config child f' this w1)) as Hf'.
      destruct (dispatch config child f this w1) as [[run|e] w2]; cbn [fst snd] in *; [|done].
      pose proof (proj1 (Hf run) eq_refl) as Hseq. apply Hf' in Hseq.
      destruct (dispatch config child f' this w1) as [[run'|e] w2']; cbn [fst snd] in *;
        [|done].
      by injection Hseq as ->. }
    destruct (Runtime.compiled (Job.runtime this)); [|apply Hrun].
    destruct (compile_outcome config child this w) as [c|e]; [|done].
    destruct (truthy (RunResult.stderr c) || is_SIGKILL (RunResult.signal c));
      [done|apply Hrun]. }
  split; apply Hone.
Qed.
